(** * Labeled homomorphic encryption over BGV: a shallow embedding of
      [labeling/labeling.go] and the properties of its operations.

    The labeled layer splits a message [m] as [m = a + Dec(β)]: the label
    [a] travels in the clear (or, after an overflow multiplication, as a
    BGV ciphertext [α]) and [β] is a BGV encryption of a small random mask.
    The BGV scheme itself (lattigo) is an external collaborator; it is
    modelled as an interface ([Provider]) whose contract ([Laws]) is the
    usual slot-wise semantics of BGV.  Everything the package itself
    computes is transcribed from the Go source: uint64 arithmetic with its
    wrap-around, slice indexing with its run-time panics, and the three
    ways a call ends (a value, an error, a panic). *)

From Stdlib Require Import ZArith Lia String.
From Stdlib Require Floats.SpecFloat.
From stdpp Require Import base tactics option list.
From coqutil Require Import Z.PushPullMod.

Local Open Scope Z_scope.

(** ** Go primitives *)

Module Go.

(** A Go [error] value; only its presence matters to the package. *)
Definition error := string.

(** What a call does: it returns a value with a nil error, returns a
    non-nil error (the value that accompanies it is disregarded by every
    caller), or the run time panics (index out of range, nil
    dereference). *)
Inductive result (A : Type) : Type :=
| Ok (a : A)
| Err (e : error)
| Panic.
Arguments Ok {A} a.
Arguments Err {A} e.
Arguments Panic {A}.

(** [x, err := call; if err != nil { return _, err }; k x] *)
Definition bind {A B : Type} (call : result A) (k : A -> result B) : result B :=
  match call with
  | Ok a => k a
  | Err e => Err e
  | Panic => Panic
  end.

(** An indexing expression or a loop that may panic. *)
Definition orPanic {A : Type} (x : option A) : result A :=
  match x with
  | Some a => Ok a
  | None => Panic
  end.

(** *** uint64 arithmetic: every operator wraps modulo [2^64]. *)
Definition wB : Z := 2 ^ 64.
Definition add64 (x y : Z) : Z := (x + y) mod wB.
Definition sub64 (x y : Z) : Z := (x - y) mod wB.
Definition mul64 (x y : Z) : Z := (x * y) mod wB.
(** [x % y]; the divisor is a plaintext modulus, never zero. *)
Definition rem64 (x y : Z) : Z := x mod y.
(** [x << s] for a shift count [s >= 0]. *)
Definition shl64 (x s : Z) : Z := Z.shiftl x s mod wB.

(** [bits.Len64]: number of bits needed to write [x]; 0 for [x = 0]. *)
Definition Len64 (x : Z) : Z := if x =? 0 then 0 else Z.log2 x + 1.

(** *** float64, following IEEE 754 binary64 with round to nearest even. *)
Definition prec64 : Z := 53.
Definition emax64 : Z := 1024.

(** [float64(x)] for an unsigned integer [x]. *)
Definition float64_of_uint64 (x : Z) : SpecFloat.spec_float :=
  SpecFloat.binary_normalize prec64 emax64 x 0 false.

(** [math.Sqrt] *)
Definition math_Sqrt (f : SpecFloat.spec_float) : SpecFloat.spec_float :=
  SpecFloat.SFsqrt prec64 emax64 f.

(** [uint64(f)] for a finite non-negative [f] below [2^64]: the
    fraction is discarded. *)
Definition uint64_of_float64 (f : SpecFloat.spec_float) : Z :=
  match f with
  | SpecFloat.S754_finite false m e =>
      if 0 <=? e then Z.pos m * 2 ^ e else Z.pos m / 2 ^ (- e)
  | _ => 0
  end.

(** *** Slices *)

(** [for i := range n { s = body(s, i) }] where the body may panic. *)
Definition forRange {S : Type} (n : nat) (body : S -> nat -> option S)
    (s0 : S) : option S :=
  foldl (fun acc i => acc ≫= fun s => body s i) (Some s0) (seq 0 n).

(** [make([]uint64, n)] *)
Definition make (n : nat) : list Z := replicate n 0.

End Go.
Import Go.

Notation "'let!' x ':=' c 'in' k" := (Go.bind c (fun x => k))
  (at level 10, x pattern, c at level 100, k at level 200, only parsing).

(** ** The BGV provider (lattigo) *)

(** [bgv.ParametersLiteral] *)
Record ParametersLiteral : Type := {
  LogN : Z;
  LogQ : list Z;
  LogP : list Z;
  PlaintextModulusLit : Z
}.

(** The part of lattigo the package calls.  [Entropy] stands for the
    operating-system randomness that [sampling.NewPRNG] and a fresh
    encryption consume; a [PRNG] is a stateful object, so sampling returns
    the advanced generator.  An evaluator method applied to a ciphertext
    and a [[]uint64] operand encodes the vector and operates slot-wise
    ([AddVector], [MulVector]). *)
Class Provider : Type := {
  bgv_Parameters : Type;
  SecretKey : Type;
  EncryptionKey : Type;
  MemEvaluationKeySet : Type;
  Plaintext : Type;
  Ciphertext : Type;
  PRNG : Type;
  Entropy : Type;
  bgv_NewParametersFromLiteral : ParametersLiteral -> result bgv_Parameters;
  MaxSlots : bgv_Parameters -> nat;
  PlaintextModulus : bgv_Parameters -> Z;
  NewPRNG : Entropy -> result PRNG;
  RandUniform : PRNG -> Z -> Z -> Z * PRNG;
  Encode : bgv_Parameters -> list Z -> result Plaintext;
  Decode : bgv_Parameters -> Plaintext -> result (list Z);
  EncryptNew : bgv_Parameters -> EncryptionKey -> Entropy -> Plaintext -> result Ciphertext;
  DecryptNew : bgv_Parameters -> SecretKey -> Ciphertext -> Plaintext;
  Add : bgv_Parameters -> option MemEvaluationKeySet ->
        Ciphertext -> Ciphertext -> result Ciphertext;
  AddVector : bgv_Parameters -> option MemEvaluationKeySet ->
        Ciphertext -> list Z -> result Ciphertext;
  MulVector : bgv_Parameters -> option MemEvaluationKeySet ->
        Ciphertext -> list Z -> result Ciphertext;
  MulRelin : bgv_Parameters -> option MemEvaluationKeySet ->
        Ciphertext -> Ciphertext -> result Ciphertext;
  RotateColumns_bgv : bgv_Parameters -> option MemEvaluationKeySet ->
        Ciphertext -> Z -> result Ciphertext;
  HasGaloisKey : MemEvaluationKeySet -> Z -> bool
}.

(** ** The package [labeling] *)

Section Labeling.
Context `{Provider}.

(** [type Labeledciphertext[T any] struct { elementsA T; elementB [][]rlwe.Ciphertext }] *)
Record Labeledciphertext (T : Type) : Type := {
  elementsA : T;
  elementB : list (list Ciphertext)
}.
Global Arguments elementsA {T} _.
Global Arguments elementB {T} _.
Global Arguments Build_Labeledciphertext {T} _ _.

(** Clear shape: the label is a slice of slot values. *)
Definition PlaintextLabeledciphertext : Type := Labeledciphertext (list Z).
(** Encrypted shape: the label is a pointer to a ciphertext, [None] when nil. *)
Definition CiphertextLabeledciphertext : Type := Labeledciphertext (option Ciphertext).

(** [type Parameters struct { bgv.Parameters }] *)
Record Parameters : Type := { embedded : bgv_Parameters }.

Definition NewParametersFromLiteral (logN : Z) (LogQ LogP : list Z)
    (PlaintextModulus : Z) : result Parameters :=
  let! params :=
    bgv_NewParametersFromLiteral
      {| LogN := 14;
         LogQ := [56; 55; 55; 54; 54; 54];
         LogP := [55; 55];
         PlaintextModulusLit := 0x3ee0001 |} in
  Ok {| embedded := params |}.

(** [uint64(math.Sqrt(float64(params.PlaintextModulus())))] *)
Definition maskBound (t : Z) : Z :=
  uint64_of_float64 (math_Sqrt (float64_of_uint64 t)).

(** [uint64(1<<bits.Len64(uint64(math.Sqrt(float64(t))))-1)] *)
Definition maskBits (t : Z) : Z :=
  sub64 (shl64 1 (Len64 (maskBound t))) 1.

(** [labeledciphertext.elementB[0][0]] *)
Definition beta00 {T : Type} (lc : Labeledciphertext T) : result Ciphertext :=
  orPanic (elementB lc !! 0%nat ≫= fun term => term !! 0%nat).

(** [buf := make([]uint64, MaxSlots); Decode(DecryptNew(ct), buf)]: the
    slots land in a buffer of [MaxSlots] words. *)
Definition decryptSlots (params : bgv_Parameters) (key : SecretKey)
    (ct : Ciphertext) : result (list Z) :=
  let! slots := Decode params (DecryptNew params key ct) in
  Ok (resize (MaxSlots params) 0 slots).

(** [pt := NewPlaintext(..); Encode(v, pt); EncryptNew(pt)] *)
Definition encryptSlots (params : bgv_Parameters) (key : EncryptionKey)
    (w : Entropy) (v : list Z) : result Ciphertext :=
  let! pt := Encode params v in
  EncryptNew params key w pt.

(** Body of the loop of [Encrypt]; the state is
    [(labeledciphertext.elementsA, masks, prng)]. *)
Definition Encrypt_body (params : Parameters) (value : list Z)
    (st : list Z * list Z * PRNG) (i : nat) : option (list Z * list Z * PRNG) :=
  let '(A, masks, prng) := st in
  let t := PlaintextModulus (embedded params) in
  let (mask, prng') := RandUniform prng (maskBound t) (maskBits t) in
  vi ← value !! i;
  let diff := rem64 (add64 (sub64 vi mask) t) t in
  Some (A ++ [diff], masks ++ [mask], prng').

Definition Encrypt_loop (params : Parameters) (value : list Z) (prng : PRNG)
    : option (list Z * list Z * PRNG) :=
  forRange (MaxSlots (embedded params)) (Encrypt_body params value) ([], [], prng).

Definition Encrypt (params : Parameters) (key : EncryptionKey) (w : Entropy)
    (value : list Z) : result PlaintextLabeledciphertext :=
  let! prng := NewPRNG w in
  let! (A, masks, _) := orPanic (Encrypt_loop params value prng) in
  let! ciphertextMask := encryptSlots (embedded params) key w masks in
  Ok {| elementsA := A; elementB := [ [ciphertextMask] ] |}.

(** Body of the loop of [Decrypt]. *)
Definition Decrypt_body (t : Z) (A maskResult : list Z)
    (value : list Z) (i : nat) : option (list Z) :=
  elementA ← A !! i;
  b ← maskResult !! i;
  Some (value ++ [rem64 (add64 (add64 elementA b) t) t]).

Definition Decrypt (params : bgv_Parameters) (key : SecretKey)
    (labeledciphertext : PlaintextLabeledciphertext) : result (list Z) :=
  let! beta := beta00 labeledciphertext in
  let! maskResult := decryptSlots params key beta in
  let A := elementsA labeledciphertext in
  orPanic (forRange (length A)
             (Decrypt_body (PlaintextModulus params) A maskResult) []).

(** [for k := range n { dst[k] = f(dst[k], src[k]) }] *)
Definition updateEach (n : nat) (f : Z -> Z -> Z) (dst src : list Z)
    : option (list Z) :=
  forRange n
    (fun d k => x ← d !! k; y ← src !! k; Some (<[k := f x y]> d)) dst.

(** [for i := range len(a1) { out = append(out, f(a1[i], a2[i])) }] *)
Definition appendEach (f : Z -> Z -> Z) (a1 a2 : list Z) : option (list Z) :=
  forRange (length a1)
    (fun out i => x ← a1 !! i; y ← a2 !! i; Some (out ++ [f x y])) [].

(** The loop of [DecryptOverflow] over the factors [elementB[i][j]] of
    one term, accumulating their slot-wise product in [multBetas]. *)
Fixpoint DecryptOverflow_factors (params : Parameters) (key : SecretKey)
    (multBetas : list Z) (term : list Ciphertext) : result (list Z) :=
  match term with
  | [] => Ok multBetas
  | beta :: rest =>
      let t := PlaintextModulus (embedded params) in
      let! plainBeta := decryptSlots (embedded params) key beta in
      let! multBetas' :=
        orPanic (updateEach (MaxSlots (embedded params))
                   (fun m b => rem64 (mul64 m b) t) multBetas plainBeta) in
      DecryptOverflow_factors params key multBetas' rest
  end.

(** The loop of [DecryptOverflow] over the terms [elementB[i]],
    accumulating in [sumBetas]. *)
Fixpoint DecryptOverflow_terms (params : Parameters) (key : SecretKey)
    (sumBetas : list Z) (bundle : list (list Ciphertext)) : result (list Z) :=
  match bundle with
  | [] => Ok sumBetas
  | term :: rest =>
      let t := PlaintextModulus (embedded params) in
      let n := MaxSlots (embedded params) in
      let! multBetas :=
        DecryptOverflow_factors params key ((fun _ => 1) <$> make n) term in
      let! sumBetas' :=
        orPanic (updateEach n (fun s m => rem64 (add64 s m) t) sumBetas multBetas) in
      DecryptOverflow_terms params key sumBetas' rest
  end.

Definition DecryptOverflow (params : Parameters) (key : SecretKey)
    (labeledciphertext : CiphertextLabeledciphertext) : result (list Z) :=
  let t := PlaintextModulus (embedded params) in
  let n := MaxSlots (embedded params) in
  let! alpha := orPanic (elementsA labeledciphertext) in
  let! plainAlpha := decryptSlots (embedded params) key alpha in
  let! sumBetas :=
    DecryptOverflow_terms params key (make n) (elementB labeledciphertext) in
  orPanic (forRange n
    (fun value i =>
       a ← plainAlpha !! i; s ← sumBetas !! i;
       Some (<[i := rem64 (add64 (add64 a s) t) t]> value))
    (make n)).

Definition Sum (params : bgv_Parameters)
    (labeledciphertext1 labeledciphertext2 : PlaintextLabeledciphertext)
    : result PlaintextLabeledciphertext :=
  let t := PlaintextModulus params in
  let! A := orPanic (appendEach (fun x y => rem64 (add64 x y) t)
                       (elementsA labeledciphertext1)
                       (elementsA labeledciphertext2)) in
  let! beta1 := beta00 labeledciphertext1 in
  let! beta2 := beta00 labeledciphertext2 in
  let! betaSum := Add params None beta1 beta2 in
  Ok {| elementsA := A; elementB := [ [betaSum] ] |}.

(** The sampling loop of [Mult]; the state is [(randomVector, prng)]. *)
Definition Mult_sample (params : Parameters) (prng : PRNG)
    : option (list Z * PRNG) :=
  let t := PlaintextModulus (embedded params) in
  let n := MaxSlots (embedded params) in
  forRange n
    (fun st i =>
       let '(randomVector, prng) := st in
       let (rand, prng') := RandUniform prng (maskBound t) (maskBits t) in
       Some (<[i := rand]> randomVector, prng'))
    (make n, prng).

(** The label loop of [Mult]. *)
Definition Mult_labels (t : Z) (a1 a2 randomVector : list Z) : option (list Z) :=
  forRange (length a1)
    (fun out i =>
       x ← a1 !! i; y ← a2 !! i; r ← randomVector !! i;
       Some (out ++ [rem64 (add64 (sub64 (mul64 x y) r) t) t]))
    [].

Definition Mult (params : Parameters)
    (labeledciphertext1 labeledciphertext2 : PlaintextLabeledciphertext)
    (key : EncryptionKey) (evk : option MemEvaluationKeySet) (w : Entropy)
    : result PlaintextLabeledciphertext :=
  let p := embedded params in
  let t := PlaintextModulus p in
  let a1 := elementsA labeledciphertext1 in
  let a2 := elementsA labeledciphertext2 in
  let! prng := NewPRNG w in
  let! (randomVector, _) := orPanic (Mult_sample params prng) in
  let! A := orPanic (Mult_labels t a1 a2 randomVector) in
  let! beta1 := beta00 labeledciphertext1 in
  let! beta2 := beta00 labeledciphertext2 in
  let! prod := MulRelin p evk beta1 beta2 in
  let! labeledciphertext1ElementB := MulVector p evk beta1 a2 in
  let! acc1 := Add p evk prod labeledciphertext1ElementB in
  let! labeledciphertext2ElementB := MulVector p evk beta2 a1 in
  let! acc2 := Add p evk acc1 labeledciphertext2ElementB in
  let! ciphertextRandomVector := encryptSlots p key w randomVector in
  let! acc3 := Add p evk acc2 ciphertextRandomVector in
  Ok {| elementsA := A; elementB := [ [acc3] ] |}.

(** The product loop of [MultOverflow]:
    [productVector := make([]uint64, len(a1)); productVector[i] = (a1[i]*a2[i]) % t]. *)
Definition MultOverflow_product (t : Z) (a1 a2 : list Z) : option (list Z) :=
  forRange (length a1)
    (fun productVector i =>
       x ← a1 !! i; y ← a2 !! i;
       Some (<[i := rem64 (mul64 x y) t]> productVector))
    (make (length a1)).

Definition MultOverflow (params : Parameters)
    (labeledciphertext1 labeledciphertext2 : PlaintextLabeledciphertext)
    (key : EncryptionKey) (w : Entropy) : result CiphertextLabeledciphertext :=
  let p := embedded params in
  let a1 := elementsA labeledciphertext1 in
  let a2 := elementsA labeledciphertext2 in
  let! productVector :=
    orPanic (MultOverflow_product (PlaintextModulus p) a1 a2) in
  let! productCiphertext := encryptSlots p key w productVector in
  let! beta2 := beta00 labeledciphertext2 in
  let! a1beta2 := MulVector p None beta2 a1 in
  let! beta1 := beta00 labeledciphertext1 in
  let! a2beta1 := MulVector p None beta1 a2 in
  let! alpha0 := Add p None productCiphertext a1beta2 in
  let! alpha := Add p None alpha0 a2beta1 in
  Ok {| elementsA := Some alpha; elementB := [ [beta1; beta2] ] |}.

Definition SumOverflow (params : Parameters)
    (labeledciphertext1 : CiphertextLabeledciphertext)
    (labeledciphertext2 : PlaintextLabeledciphertext)
    : result CiphertextLabeledciphertext :=
  let! ct1 := orPanic (elementsA labeledciphertext1) in
  let! sum := AddVector (embedded params) None ct1 (elementsA labeledciphertext2) in
  Ok {| elementsA := Some sum;
        elementB := ([] ++ elementB labeledciphertext1) ++ elementB labeledciphertext2 |}.

Definition SumOverflowCiphertext (params : Parameters)
    (labeledciphertext1 labeledciphertext2 : CiphertextLabeledciphertext)
    : result CiphertextLabeledciphertext :=
  let! ct1 := orPanic (elementsA labeledciphertext1) in
  let! ct2 := orPanic (elementsA labeledciphertext2) in
  let! sum := Add (embedded params) None ct1 ct2 in
  Ok {| elementsA := Some sum;
        elementB := ([] ++ elementB labeledciphertext1) ++ elementB labeledciphertext2 |}.

(** The BGV column rotation on slot indices, as [examples/rotate] checks
    it: a cyclic left shift by [k] inside each of the halves [[0, n/2)]
    and [[n/2, n)]. *)
Definition sigma (n : nat) (k : Z) (i : nat) : nat :=
  let h := (n / 2)%nat in
  if (i <? h)%nat
  then Z.to_nat ((Z.of_nat i + k) mod Z.of_nat h)
  else (h + Z.to_nat ((Z.of_nat i - Z.of_nat h + k) mod Z.of_nat h))%nat.

(** Modelled from the spec: [RotateColumns] of the package is not part of
    the available source (only its caller in [examples/rotate] is).  The
    label is permuted as [A'[i] = A[sigma_k(i)]], the single beta is
    rotated by the BGV evaluator with the Galois key held in [evk]; the
    shape stays clear with one term of one factor. *)
Definition RotateColumns (params : Parameters)
    (labeledciphertext : PlaintextLabeledciphertext) (k : Z)
    (evk : option MemEvaluationKeySet) : result PlaintextLabeledciphertext :=
  let n := MaxSlots (embedded params) in
  let A := elementsA labeledciphertext in
  let! A' := orPanic (mapM (fun i => A !! sigma n k i) (seq 0 n)) in
  let! beta := beta00 labeledciphertext in
  let! beta' := RotateColumns_bgv (embedded params) evk beta k in
  Ok {| elementsA := A'; elementB := [ [beta'] ] |}.

(** ** The contract of the provider

    What the package relies on from BGV, slot-wise over [Z_t] and under
    a fixed key material [(sk, pk, evk)] with enough noise budget. *)

(** A slot vector of [Z_t^n]. *)
Definition slotVector (p : bgv_Parameters) (v : list Z) : Prop :=
  length v = MaxSlots p ∧ Forall (fun z => 0 <= z < PlaintextModulus p) v.

(** [ct] decrypts under [sk] to the slot vector [x]. *)
Definition encrypts (p : bgv_Parameters) (sk : SecretKey) (ct : Ciphertext)
    (x : list Z) : Prop :=
  Decode p (DecryptNew p sk ct) = Ok x ∧ slotVector p x.

Definition addSlots (t : Z) (x y : list Z) : list Z :=
  zip_with (fun a b => (a + b) mod t) x y.
Definition mulSlots (t : Z) (x y : list Z) : list Z :=
  zip_with (fun a b => (a * b) mod t) x y.
(** The slot vector left by a column rotation by [k]. *)
Definition rotSlots (n : nat) (k : Z) (x x' : list Z) : Prop :=
  length x' = n ∧ ∀ i, (i < n)%nat → x' !! i = x !! sigma n k i.

Record Laws (p : bgv_Parameters) (sk : SecretKey) (pk : EncryptionKey)
    (evk : MemEvaluationKeySet) : Prop := {
  (** rejection sampler: the value lies below the bound *)
  law_RandUniform : ∀ g v mask, 0 < v → 0 <= (RandUniform g v mask).1 < v;
  (** a full slot vector encodes, encrypts, and decrypts to itself mod [t] *)
  law_Encrypt : ∀ w v,
    length v = MaxSlots p →
    ∃ pt ct, Encode p v = Ok pt ∧ EncryptNew p pk w pt = Ok ct ∧
             encrypts p sk ct ((fun z => z mod PlaintextModulus p) <$> v);
  law_Add : ∀ ek c1 c2 x1 x2,
    encrypts p sk c1 x1 → encrypts p sk c2 x2 →
    ∃ c, Add p ek c1 c2 = Ok c ∧
         encrypts p sk c (addSlots (PlaintextModulus p) x1 x2);
  law_AddVector : ∀ ek c x v,
    encrypts p sk c x → length v = MaxSlots p →
    ∃ c', AddVector p ek c v = Ok c' ∧
          encrypts p sk c' (addSlots (PlaintextModulus p) x v);
  law_MulVector : ∀ ek c x v,
    encrypts p sk c x → length v = MaxSlots p →
    ∃ c', MulVector p ek c v = Ok c' ∧
          encrypts p sk c' (mulSlots (PlaintextModulus p) x v);
  (** ciphertext product, relinearised with the key in [evk] *)
  law_MulRelin : ∀ c1 c2 x1 x2,
    encrypts p sk c1 x1 → encrypts p sk c2 x2 →
    ∃ c, MulRelin p (Some evk) c1 c2 = Ok c ∧
         encrypts p sk c (mulSlots (PlaintextModulus p) x1 x2);
  (** column rotation, for a step whose Galois key is in [evk] *)
  law_RotateColumns : ∀ c x k,
    encrypts p sk c x → HasGaloisKey evk k = true →
    ∃ c' x', RotateColumns_bgv p (Some evk) c k = Ok c' ∧
             encrypts p sk c' x' ∧ rotSlots (MaxSlots p) k x x'
}.

(** [k] successive calls of the sampler, first draw first. *)
Fixpoint draws (k : nat) (g : PRNG) (v mask : Z) : list Z * PRNG :=
  match k with
  | O => ([], g)
  | S k' =>
      let (x, g') := RandUniform g v mask in
      let (xs, g'') := draws k' g' v mask in
      (x :: xs, g'')
  end.

(** The float square root of the modulus is the integer square root. *)
Definition sqrtExact (t : Z) : Prop := maskBound t = Z.sqrt t.

(** The plaintext moduli the uint64 label arithmetic is exact for. *)
Definition smallModulus (t : Z) : Prop := 1 < t <= 2 ^ 32.

(** *** The semantic contract of a labeled ciphertext *)

(** Clear shape: one term of one beta, and label plus mask is the message. *)
Definition labelled (p : bgv_Parameters) (sk : SecretKey)
    (C : PlaintextLabeledciphertext) (m : list Z) : Prop :=
  ∃ beta b,
    elementB C = [ [beta] ] ∧ encrypts p sk beta b ∧
    slotVector p (elementsA C) ∧
    m = addSlots (PlaintextModulus p) (elementsA C) b.

(** Slot-wise product of the factors of a term, and slot-wise sum of the
    terms of a bundle. *)
Definition termValue (p : bgv_Parameters) (xs : list (list Z)) : list Z :=
  foldl (mulSlots (PlaintextModulus p)) (replicate (MaxSlots p) 1) xs.
Definition bundleValue (p : bgv_Parameters) (ys : list (list Z)) : list Z :=
  foldl (addSlots (PlaintextModulus p)) (replicate (MaxSlots p) 0) ys.

Definition decryptsTerm (p : bgv_Parameters) (sk : SecretKey)
    (term : list Ciphertext) (y : list Z) : Prop :=
  ∃ xs, Forall2 (encrypts p sk) term xs ∧ y = termValue p xs.

(** Encrypted shape: [Dec(α)] plus the sum over the terms of the product
    of their decrypted factors is the message. *)
Definition overflowed (p : bgv_Parameters) (sk : SecretKey)
    (C : CiphertextLabeledciphertext) (m : list Z) : Prop :=
  ∃ alpha x ys,
    elementsA C = Some alpha ∧ encrypts p sk alpha x ∧
    Forall2 (decryptsTerm p sk) (elementB C) ys ∧
    m = addSlots (PlaintextModulus p) x (bundleValue p ys).

End Labeling.

(** ** Key generation and the example driver *)

(** The key generator of lattigo, as [GenerateKeyPair],
    [GenerateRelinearizationKey] and [GenerateMemEvaluationKeySet] call
    it; each generation consumes fresh randomness. *)
Class KeyGenerator `{Provider} : Type := {
  RelinearizationKey : Type;
  GenKeyPairNew : bgv_Parameters -> Entropy -> SecretKey * EncryptionKey;
  GenRelinearizationKeyNew : bgv_Parameters -> SecretKey -> Entropy -> RelinearizationKey;
  NewMemEvaluationKeySet : RelinearizationKey -> MemEvaluationKeySet
}.

(** How the driver ends: it prints its last line, stops in [log.Fatalf],
    or panics. *)
Inductive exit : Type :=
| Completed
| Fatal
| Panicked.

(** The randomness the driver consumes, one draw of the operating system
    per call that needs one. *)
Record Randomness `{Provider} : Type := {
  forKeys : Entropy;
  forRelin : Entropy;
  forValues : Entropy;
  forEncrypt1 : Entropy;
  forEncrypt2 : Entropy;
  forMult : Entropy;
  forMultOverflow : Entropy
}.

Section Driver.
Context `{KeyGenerator}.

Definition GenerateKeyPair (params : Parameters) (w : Entropy)
    : SecretKey * EncryptionKey :=
  GenKeyPairNew (embedded params) w.

Definition GenerateRelinearizationKey (params : Parameters) (sk : SecretKey)
    (w : Entropy) : RelinearizationKey :=
  GenRelinearizationKeyNew (embedded params) sk w.

Definition GenerateMemEvaluationKeySet (rlk : RelinearizationKey)
    : MemEvaluationKeySet :=
  NewMemEvaluationKeySet rlk.

(** [x, err := call; if err != nil { log.Fatalf(...) }; k x] *)
Definition orFatal {A : Type} (call : result A) (k : A -> exit) : exit :=
  match call with
  | Ok a => k a
  | Err _ => Fatal
  | Panic => Panicked
  end.

(** The sampling loops of [main]:
    [v := make([]uint64, n); for i := range n { v[i] = RandUniform(prng, maxvalue, mask) }]. *)
Definition main_sample (params : Parameters) (prng : PRNG) : option (list Z * PRNG) :=
  let maxvalue := maskBound (PlaintextModulus (embedded params)) in
  let mask := sub64 (shl64 1 (Len64 maxvalue)) 1 in
  forRange (MaxSlots (embedded params))
    (fun st i =>
       let '(valuesVector, prng) := st in
       let (rand, prng') := RandUniform prng maxvalue mask in
       Some (<[i := rand]> valuesVector, prng'))
    (make (MaxSlots (embedded params)), prng).

(** [(((v1[i] * v2[i]) * v1[i]) + v1[i]) % t] *)
Definition expectedValue (t a b : Z) : Z :=
  rem64 (add64 (mul64 (mul64 a b) a) a) t.

(** The comparison loop of [main]; the state tells whether no mismatch
    has stopped the program yet. *)
Definition main_check (params : Parameters) (v1 v2 value : list Z) : option bool :=
  forRange (MaxSlots (embedded params))
    (fun running i =>
       if running : bool then
         a ← v1 !! i; b ← v2 !! i; x ← value !! i;
         Some (x =? expectedValue (PlaintextModulus (embedded params)) a b)
       else Some false)
    true.

(** [main] of the example that evaluates [((v1*v2)*v1)+v1]. *)
Definition main (r : Randomness) : exit :=
  orFatal (NewParametersFromLiteral 14 [56; 55; 55; 54; 54; 54] [55; 55] 0x3ee0001)
    (fun params =>
  let (Sk, Pk) := GenerateKeyPair params (forKeys r) in
  let rlk := GenerateRelinearizationKey params Sk (forRelin r) in
  let evk := GenerateMemEvaluationKeySet rlk in
  match NewPRNG (forValues r) with
  | Err _ | Panic => Panicked
  | Ok prng =>
  match main_sample params prng with
  | None => Panicked
  | Some (valuesVector1, prng1) =>
  match main_sample params prng1 with
  | None => Panicked
  | Some (valuesVector2, _) =>
  orFatal (Encrypt params Pk (forEncrypt1 r) valuesVector1) (fun labeledciphertext1 =>
  orFatal (Encrypt params Pk (forEncrypt2 r) valuesVector2) (fun labeledciphertext2 =>
  orFatal (Mult params labeledciphertext1 labeledciphertext2 Pk (Some evk) (forMult r))
    (fun labeledciphertextMult =>
  orFatal (MultOverflow params labeledciphertext1 labeledciphertextMult Pk
             (forMultOverflow r)) (fun labeledciphertex2Mult =>
  orFatal (SumOverflow params labeledciphertex2Mult labeledciphertext1)
    (fun labeledciphertex2MultAndSum =>
  orFatal (DecryptOverflow params Sk labeledciphertex2MultAndSum) (fun value =>
  match main_check params valuesVector1 valuesVector2 value with
  | None => Panicked
  | Some true => Completed
  | Some false => Fatal
  end))))))
  end end end).

(** The generated keys are correct for the parameters [p]. *)
Definition keysCorrect (p : bgv_Parameters) : Prop :=
  ∀ w w',
    Laws p (GenKeyPairNew p w).1 (GenKeyPairNew p w).2
      (NewMemEvaluationKeySet (GenRelinearizationKeyNew p (GenKeyPairNew p w).1 w')).

End Driver.

(** ** An ideal provider

    A provider without noise: a ciphertext is the slot vector it encrypts.
    It satisfies the contract [Laws] and lets the package's functions be
    evaluated on concrete inputs. *)

Module Ideal.

Definition slots (p : ParametersLiteral) : nat := Z.to_nat (2 ^ LogN p).

(** One step of a 64-bit linear congruential generator. *)
Definition lcg (g : Z) : Z :=
  (g * 6364136223846793005 + 1442695040888963407) mod 2 ^ 64.

(** Rejection sampling: draw, mask, accept below [v]. *)
Fixpoint reject (fuel : nat) (g v mask : Z) : Z * Z :=
  match fuel with
  | O => (0, g)
  | S fuel' =>
      let g' := lcg g in
      let r := Z.land (Z.shiftr g' 32) mask in
      if (0 <=? r) && (r <? v) then (r, g') else reject fuel' g' v mask
  end.

Definition rotate (n : nat) (k : Z) (x : list Z) : list Z :=
  (fun i => default 0 (x !! sigma n k i)) <$> seq 0 n.

Definition validLiteral (lit : ParametersLiteral) : bool :=
  (1 <=? LogN lit) && (LogN lit <=? 17) && (1 <? PlaintextModulusLit lit).

#[export] Instance provider : Provider := {|
  bgv_Parameters := ParametersLiteral;
  SecretKey := unit;
  EncryptionKey := unit;
  MemEvaluationKeySet := list Z;
  Plaintext := list Z;
  Ciphertext := list Z;
  PRNG := Z;
  Entropy := Z;
  bgv_NewParametersFromLiteral lit :=
    if validLiteral lit then Ok lit else Err "invalid parameters"%string;
  MaxSlots := slots;
  PlaintextModulus := PlaintextModulusLit;
  NewPRNG w := Ok w;
  RandUniform g v mask := reject 64 g v mask;
  Encode p v :=
    if decide (length v ≤ slots p)%nat
    then Ok (resize (slots p) 0 ((fun z => z mod PlaintextModulusLit p) <$> v))
    else Err "too many values"%string;
  Decode p pt := Ok pt;
  EncryptNew p pk w pt := Ok pt;
  DecryptNew p sk ct := ct;
  Add p ek c1 c2 := Ok (addSlots (PlaintextModulusLit p) c1 c2);
  AddVector p ek c v := Ok (addSlots (PlaintextModulusLit p) c v);
  MulVector p ek c v := Ok (mulSlots (PlaintextModulusLit p) c v);
  MulRelin p ek c1 c2 :=
    match ek with
    | Some _ => Ok (mulSlots (PlaintextModulusLit p) c1 c2)
    | None => Err "no relinearization key"%string
    end;
  RotateColumns_bgv p ek c k :=
    match ek with
    | Some keys =>
        if bool_decide (k ∈ keys) then Ok (rotate (slots p) k c)
        else Err "no Galois key"%string
    | None => Err "no Galois key"%string
    end;
  HasGaloisKey keys k := bool_decide (k ∈ keys)
|}.

(** Four slots over the deployed plaintext modulus. *)
Definition p4 : ParametersLiteral :=
  {| LogN := 2; LogQ := [56; 55]; LogP := [55]; PlaintextModulusLit := 0x3ee0001 |}.
Definition params4 : Parameters := {| embedded := p4 |}.

(** Concrete operands: two slot vectors, two encrypted-shape
    ciphertexts, and clear-shape ciphertexts of unequal label length. *)
Definition v1 : list Z := [10; 20; 30; 40].
Definition v2 : list Z := [5; 10; 15; 65929216].

Definition Ca : CiphertextLabeledciphertext :=
  {| elementsA := Some [1; 2; 3; 4];
     elementB := [ [ [5; 6; 7; 8]; [1; 1; 2; 2] ] ] |}.
Definition Cb : CiphertextLabeledciphertext :=
  {| elementsA := Some [0; 0; 1; 65929216];
     elementB := [ [ [9; 9; 9; 9] ]; [ [2; 3; 4; 5]; [1; 0; 1; 0] ] ] |}.

(** What [Encrypt] returns for [v1] with entropy [7]. *)
Definition E1 : PlaintextLabeledciphertext :=
  {| elementsA := [65926991; 65922454; 65922493; 65923335];
     elementB := [ [ [2236; 6783; 6754; 5922] ] ] |}.
Definition short : PlaintextLabeledciphertext :=
  {| elementsA := [1; 2]; elementB := [ [ [1; 1; 1; 1] ] ] |}.
Definition long : PlaintextLabeledciphertext :=
  {| elementsA := [3; 4; 5; 6]; elementB := [ [ [2; 2; 2; 2] ] ] |}.

(** Key generation of the ideal provider: there is nothing to generate. *)
#[export] Instance keygen : KeyGenerator := {|
  RelinearizationKey := unit;
  GenKeyPairNew p w := (tt, tt);
  GenRelinearizationKeyNew p sk w := tt;
  NewMemEvaluationKeySet rlk := []
|}.

(** Clear-shape operands for the ideal provider. *)
Definition F1 : PlaintextLabeledciphertext :=
  {| elementsA := [1; 2; 3; 4]; elementB := [ [ [9; 18; 27; 36] ] ] |}.
Definition F2 : PlaintextLabeledciphertext :=
  {| elementsA := [65929216; 0; 5; 7]; elementB := [ [ [6; 10; 10; 65929210] ] ] |}.
Definition F3 : PlaintextLabeledciphertext :=
  {| elementsA := [2; 2; 2; 2]; elementB := [ [ [0; 1; 2; 3] ] ] |}.
(** A label longer than the slot count, and a ciphertext without beta. *)
Definition tooLong : PlaintextLabeledciphertext :=
  {| elementsA := [1; 2; 3; 4; 5]; elementB := [ [ [9; 18; 27; 36] ] ] |}.
Definition noBeta : PlaintextLabeledciphertext :=
  {| elementsA := [1; 2; 3; 4]; elementB := [ [] ] |}.
(** What [Encrypt] returns for [v2] with entropy [7]. *)
Definition E2 : PlaintextLabeledciphertext :=
  {| elementsA := [65926986; 65922444; 65922478; 65923294];
     elementB := [ [ [2236; 6783; 6754; 5922] ] ] |}.
(** Encrypted-shape ciphertexts with an empty bundle and an empty term. *)
Definition bare : CiphertextLabeledciphertext :=
  {| elementsA := Some [1; 2; 3; 65929216]; elementB := [] |}.
Definition emptyTerm : CiphertextLabeledciphertext :=
  {| elementsA := Some [1; 2; 3; 65929216]; elementB := [ [] ] |}.
Definition randomness0 : Randomness :=
  {| forKeys := 1; forRelin := 2; forValues := 3; forEncrypt1 := 4;
     forEncrypt2 := 5; forMult := 6; forMultOverflow := 7 |}.
Definition deployed : ParametersLiteral :=
  {| LogN := 14; LogQ := [56; 55; 55; 54; 54; 54]; LogP := [55; 55];
     PlaintextModulusLit := 0x3ee0001 |}.

End Ideal.

(** * Properties *)

(** ** Loops *)

Section Loops.
Context {S : Type}.
Implicit Types body : S → nat → option S.

Lemma forRange_0 body s : forRange 0 body s = Some s.
Proof. reflexivity. Qed.

Lemma forRange_S n body s :
  forRange (Datatypes.S n) body s = forRange n body s ≫= fun s' => body s' n.
Proof. unfold forRange. rewrite seq_S, foldl_app. reflexivity. Qed.

(** A loop invariant [I k s] kept by every iteration that runs holds at
    the end, and the loop does not panic. *)
Lemma forRange_invariant (I : nat → S → Prop) n body s0 :
  I 0%nat s0 →
  (∀ k s, (k < n)%nat → I k s → ∃ s', body s k = Some s' ∧ I (Datatypes.S k) s') →
  ∃ s, forRange n body s0 = Some s ∧ I n s.
Proof.
  intros H0 Hstep. induction n as [|n IH].
  - exists s0. split; [reflexivity | exact H0].
  - destruct IH as (s & Hs & HI).
    { intros k s Hk. apply Hstep. lia. }
    destruct (Hstep n s) as (s' & Hb & HI'); [lia | exact HI |].
    exists s'. split; [| exact HI'].
    rewrite forRange_S, Hs. exact Hb.
Qed.

(** Partial form: whatever state a loop that ran to its end returns
    satisfies an invariant every iteration preserves. *)
Lemma forRange_preserves (I : nat → S → Prop) n body s0 s :
  forRange n body s0 = Some s →
  I 0%nat s0 →
  (∀ k s1 s2, (k < n)%nat → I k s1 → body s1 k = Some s2 → I (Datatypes.S k) s2) →
  I n s.
Proof.
  revert s. induction n as [|n IH]; intros s Hs H0 Hstep.
  - rewrite forRange_0 in Hs. congruence.
  - rewrite forRange_S in Hs.
    destruct (forRange n body s0) as [s1|] eqn:E; [| discriminate].
    simpl in Hs. apply (Hstep n s1 s); [lia | | exact Hs].
    apply IH; [reflexivity | exact H0 |].
    intros k a b Hk. apply Hstep. lia.
Qed.

(** The first iteration that panics makes the loop panic. *)
Lemma forRange_panics (I : nat → S → Prop) n body s0 j :
  (j < n)%nat →
  I 0%nat s0 →
  (∀ k s, (k < j)%nat → I k s → ∃ s', body s k = Some s' ∧ I (Datatypes.S k) s') →
  (∀ s, I j s → body s j = None) →
  forRange n body s0 = None.
Proof.
  intros Hj H0 Hstep Hfail.
  destruct (forRange_invariant I j body s0 H0 Hstep) as (s & Hs & HI).
  assert (Hn : ∀ m, forRange (Datatypes.S j + m) body s0 = None).
  { induction m as [|m IH].
    - rewrite Nat.add_0_r, forRange_S, Hs. simpl. apply Hfail, HI.
    - replace (Datatypes.S j + Datatypes.S m)%nat
        with (Datatypes.S (Datatypes.S j + m)) by lia.
      rewrite forRange_S, IH. reflexivity. }
  replace n with (Datatypes.S j + (n - Datatypes.S j))%nat by lia. apply Hn.
Qed.
End Loops.

(** A loop that appends one element per round builds the list it is
    aiming at, one prefix at a time. *)
Lemma forRange_append {A : Type} (h : list A → nat → option A) (target : list A) n :
  length target = n →
  (∀ k, (k < n)%nat → h (take k target) k = target !! k) →
  forRange n (fun out k => z ← h out k; Some (out ++ [z])) [] = Some target.
Proof.
  intros Hlen Hh.
  destruct (forRange_invariant (fun k out => out = take k target) n
              (fun out k => z ← h out k; Some (out ++ [z])) []) as (out & Hout & ->).
  - reflexivity.
  - intros k out Hk ->.
    destruct (lookup_lt_is_Some_2 target k) as [z Hz]; [lia |].
    exists (take k target ++ [z]). split.
    + rewrite Hh, Hz by lia. reflexivity.
    + symmetry. apply take_S_r, Hz.
  - rewrite Hout. f_equal. apply take_ge. lia.
Qed.

(** A loop that overwrites position [k] in round [k] turns the buffer
    into the list it is aiming at, left to right. *)
Lemma forRange_insert {A : Type} (h : list A → nat → option A) (target init : list A) n :
  length init = n →
  length target = n →
  (∀ k, (k < n)%nat → h (take k target ++ drop k init) k = target !! k) →
  forRange n (fun d k => z ← h d k; Some (<[k:=z]> d)) init = Some target.
Proof.
  intros Hinit Hlen Hh.
  destruct (forRange_invariant (fun k d => d = take k target ++ drop k init) n
              (fun d k => z ← h d k; Some (<[k:=z]> d)) init) as (d & Hd & ->).
  - reflexivity.
  - intros k d Hk ->.
    destruct (lookup_lt_is_Some_2 target k) as [z Hz]; [lia |].
    destruct (lookup_lt_is_Some_2 init k) as [y Hy]; [lia |].
    exists (<[k:=z]> (take k target ++ drop k init)). split.
    + rewrite Hh, Hz by lia. reflexivity.
    + rewrite insert_app_r_alt by (rewrite length_take; lia).
      rewrite length_take, (drop_S _ _ _ Hy), (take_S_r _ _ _ Hz).
      replace (k - k `min` length target)%nat with 0%nat by lia.
      simpl. rewrite <- app_assoc. reflexivity.
  - rewrite Hd, take_ge, drop_ge, app_nil_r by lia. reflexivity.
Qed.

Lemma forRange_ext {S : Type} (f g : S → nat → option S) n s :
  (∀ s' k, f s' k = g s' k) → forRange n f s = forRange n g s.
Proof.
  intros Hfg. induction n as [|n IH]; [reflexivity |].
  rewrite !forRange_S, IH. destruct (forRange n g s); simpl; [apply Hfg | reflexivity].
Qed.

Lemma appendEach_zip (f : Z → Z → Z) (a1 a2 : list Z) :
  (length a1 ≤ length a2)%nat → appendEach f a1 a2 = Some (zip_with f a1 a2).
Proof.
  intros Hlen. unfold appendEach.
  rewrite (forRange_ext _
    (fun out k => z ← (x ← a1 !! k; y ← a2 !! k; Some (f x y)); Some (out ++ [z]))).
  - apply (forRange_append (fun _ k => x ← a1 !! k; y ← a2 !! k; Some (f x y))).
    + rewrite length_zip_with. lia.
    + intros k _. symmetry. apply lookup_zip_with.
  - intros out k. destruct (a1 !! k), (a2 !! k); reflexivity.
Qed.

(** The loop reads past the end of a shorter second operand. *)
Lemma appendEach_short (f : Z → Z → Z) (a1 a2 : list Z) :
  (length a2 < length a1)%nat → appendEach f a1 a2 = None.
Proof.
  intros Hlen. unfold appendEach.
  apply (forRange_panics (fun _ _ => True) _ _ _ (length a2)); [lia | exact I | |].
  - intros k out Hk _.
    destruct (lookup_lt_is_Some_2 a1 k) as [x Hx]; [lia |].
    destruct (lookup_lt_is_Some_2 a2 k) as [y Hy]; [lia |].
    rewrite Hx, Hy. simpl. eauto.
  - intros out _. rewrite (lookup_ge_None_2 a2) by lia.
    destruct (a1 !! length a2); reflexivity.
Qed.

Lemma updateEach_zip (f : Z → Z → Z) (n : nat) (dst src : list Z) :
  length dst = n → length src = n →
  updateEach n f dst src = Some (zip_with f dst src).
Proof.
  intros Hd Hs. unfold updateEach.
  rewrite (forRange_ext _
    (fun d k => z ← (x ← d !! k; y ← src !! k; Some (f x y)); Some (<[k:=z]> d))).
  - apply (forRange_insert (fun d k => x ← d !! k; y ← src !! k; Some (f x y))).
    + exact Hd.
    + rewrite length_zip_with. lia.
    + intros k Hk. rewrite lookup_zip_with.
      rewrite lookup_app_r by (rewrite length_take, length_zip_with; lia).
      rewrite length_take, length_zip_with, lookup_drop.
      replace (k + (k - k `min` (length dst `min` length src)))%nat with k by lia.
      reflexivity.
  - intros d k. destruct (d !! k), (src !! k); reflexivity.
Qed.

(** ** uint64 arithmetic of the labels *)

Lemma wB_eq : wB = 18446744073709551616.
Proof. reflexivity. Qed.

(** [(m - b + t) % t] in uint64 *)
Lemma label_sub (t m b : Z) :
  0 < t <= 2 ^ 63 → 0 <= m < t → 0 <= b <= t →
  rem64 (add64 (sub64 m b) t) t = (m - b) mod t.
Proof.
  intros Ht Hm Hb. unfold rem64, add64, sub64.
  rewrite Zplus_mod_idemp_l, wB_eq.
  rewrite (Z.mod_small (m - b + t)) by lia.
  replace (m - b + t) with (m - b + 1 * t) by lia. apply Z_mod_plus_full.
Qed.

(** [(a + b + t) % t] in uint64 *)
Lemma label_add (t a b : Z) :
  0 < t <= 2 ^ 62 → 0 <= a < t → 0 <= b < t →
  rem64 (add64 (add64 a b) t) t = (a + b) mod t.
Proof.
  intros Ht Ha Hb. unfold rem64, add64.
  rewrite Zplus_mod_idemp_l, wB_eq.
  rewrite (Z.mod_small (a + b + t)) by lia.
  replace (a + b + t) with (a + b + 1 * t) by lia. apply Z_mod_plus_full.
Qed.

(** [(x*y - r + t) % t] in uint64 *)
Lemma label_mul (t x y r : Z) :
  0 < t <= 2 ^ 32 → 0 <= x < t → 0 <= y < t → 0 <= r <= t →
  rem64 (add64 (sub64 (mul64 x y) r) t) t = (x * y - r) mod t.
Proof.
  intros Ht Hx Hy Hr. unfold rem64, add64, sub64, mul64.
  assert (0 <= x * y <= (t - 1) * (t - 1)) by nia.
  assert ((t - 1) * (t - 1) + t < 2 ^ 64) by nia.
  rewrite wB_eq in *.
  rewrite (Z.mod_small (x * y)) by lia.
  rewrite Zplus_mod_idemp_l.
  rewrite (Z.mod_small (x * y - r + t)) by lia.
  replace (x * y - r + t) with (x * y - r + 1 * t) by lia. apply Z_mod_plus_full.
Qed.

(** Beyond 32 bits the product of two labels wraps: with the prime
    [t = 2^40 - 87] and [x = y = t - 1] the uint64 expression of [Mult] is
    not [(x*y - r) mod t]. *)
Example label_mul_wraps :
  let t := 2 ^ 40 - 87 in
  rem64 (add64 (sub64 (mul64 (t - 1) (t - 1)) 0) t) t ≠ ((t - 1) * (t - 1) - 0) mod t.
Proof. vm_compute. discriminate. Qed.

(** [(x*y) % t] in uint64 *)
Lemma rem_mul (t x y : Z) :
  0 <= x < 2 ^ 32 → 0 <= y < 2 ^ 32 → rem64 (mul64 x y) t = (x * y) mod t.
Proof.
  intros Hx Hy. unfold rem64, mul64. rewrite wB_eq.
  rewrite (Z.mod_small (x * y)) by nia. reflexivity.
Qed.

(** [(x+y) % t] in uint64 *)
Lemma rem_add (t x y : Z) :
  0 <= x < 2 ^ 63 → 0 <= y < 2 ^ 63 → rem64 (add64 x y) t = (x + y) mod t.
Proof.
  intros Hx Hy. unfold rem64, add64. rewrite wB_eq.
  rewrite (Z.mod_small (x + y)) by lia. reflexivity.
Qed.

(** ** Slot vectors *)

(** Case analysis on position [i] of every vector whose length is known:
    either all of them have an element there, or none has. *)
Ltac slot_cases i :=
  repeat match goal with
  | H : length ?x = _ |- context [?x !! i] =>
      let E := fresh "E" in
      let z := fresh "z" in
      destruct (x !! i) as [z|] eqn:E;
      [ pose proof (lookup_lt_Some _ _ _ E)
      | pose proof (proj1 (lookup_ge_None _ _) E) ];
      try (exfalso; lia)
  end.

Ltac slotwise i :=
  apply list_eq; intros i;
  unfold addSlots, mulSlots;
  rewrite ?lookup_zip_with, ?list_lookup_fmap;
  slot_cases i; simpl; try reflexivity.

Section Slots.
Variable t : Z.
Variable n : nat.
Hypothesis t_pos : 0 < t.
Local Abbreviation inRange := (Forall (fun z => 0 <= z < t)).

Lemma zip_with_ext_Forall (P Q : Z → Prop) (f g : Z → Z → Z) (x y : list Z) :
  Forall P x → Forall Q y →
  (∀ a b, P a → Q b → f a b = g a b) →
  zip_with f x y = zip_with g x y.
Proof.
  intros Hx. revert y. induction Hx as [|a x Ha Hx IH]; intros y Hy Hfg.
  - reflexivity.
  - destruct Hy as [|b y Hb Hy]; [reflexivity |].
    simpl. rewrite Hfg by assumption. f_equal. apply IH; assumption.
Qed.

Lemma zip_with_mod_inRange (f : Z → Z → Z) (x y : list Z) :
  inRange (zip_with (fun a b => f a b mod t) x y).
Proof.
  revert y. induction x as [|a x IH]; intros [|b y]; simpl; constructor.
  - apply Z.mod_pos_bound, t_pos.
  - apply IH.
Qed.

Lemma addSlots_length x y :
  length x = n → length y = n → length (addSlots t x y) = n.
Proof. intros. unfold addSlots. rewrite length_zip_with. lia. Qed.

Lemma mulSlots_length x y :
  length x = n → length y = n → length (mulSlots t x y) = n.
Proof. intros. unfold mulSlots. rewrite length_zip_with. lia. Qed.

Lemma addSlots_inRange x y : inRange (addSlots t x y).
Proof. apply (zip_with_mod_inRange Z.add). Qed.

Lemma mulSlots_inRange x y : inRange (mulSlots t x y).
Proof. apply (zip_with_mod_inRange Z.mul). Qed.

Lemma inRange_lookup x i z : inRange x → x !! i = Some z → 0 <= z < t.
Proof. intros Hx Hz. exact (Forall_lookup_1 _ _ _ _ Hx Hz). Qed.

Lemma addSlots_comm x y :
  length x = n → length y = n → addSlots t x y = addSlots t y x.
Proof. intros Hx Hy. slotwise i. do 2 f_equal. lia. Qed.

Lemma addSlots_assoc x y z :
  length x = n → length y = n → length z = n →
  addSlots t (addSlots t x y) z = addSlots t x (addSlots t y z).
Proof. intros Hx Hy Hz. slotwise i. f_equal. Z.mod_equality. Qed.

Lemma addSlots_zero_l x :
  length x = n → inRange x → addSlots t (replicate n 0) x = x.
Proof.
  intros Hx Rx. apply list_eq; intros i. unfold addSlots.
  rewrite lookup_zip_with.
  destruct (x !! i) as [z|] eqn:E.
  - pose proof (lookup_lt_Some _ _ _ E).
    rewrite (proj2 (lookup_replicate n 0 0 i)) by (split; [reflexivity | lia]).
    simpl. f_equal. apply Z.mod_small. eapply inRange_lookup; eassumption.
  - destruct (replicate n 0 !! i); reflexivity.
Qed.

Lemma replicate_inRange z : 0 <= z < t → inRange (replicate n z).
Proof. intros Hz. apply Forall_replicate, Hz. Qed.

(** The sum of the terms of a bundle, started from any accumulator. *)
Lemma foldl_addSlots_length acc ys :
  length acc = n → Forall (fun y => length y = n) ys →
  length (foldl (addSlots t) acc ys) = n.
Proof.
  intros Hacc Hys. revert acc Hacc.
  induction Hys as [|y ys Hy Hys IH]; intros acc Hacc; simpl; [exact Hacc |].
  apply IH, addSlots_length; assumption.
Qed.

Lemma foldl_addSlots_inRange acc ys :
  inRange acc → inRange (foldl (addSlots t) acc ys).
Proof.
  revert acc. induction ys as [|y ys IH]; intros acc Hacc; simpl; [exact Hacc |].
  apply IH, addSlots_inRange.
Qed.

Lemma foldl_addSlots_shift a b ys :
  length a = n → length b = n → Forall (fun y => length y = n) ys →
  foldl (addSlots t) (addSlots t a b) ys = addSlots t a (foldl (addSlots t) b ys).
Proof.
  intros Ha Hb Hys. revert b Hb.
  induction Hys as [|y ys Hy Hys IH]; intros b Hb; simpl; [reflexivity |].
  rewrite addSlots_assoc by assumption.
  apply IH, addSlots_length; assumption.
Qed.

(** The value of a concatenated bundle is the sum of the two values. *)
Lemma foldl_addSlots_app ys zs :
  Forall (fun y => length y = n) ys → Forall (fun y => length y = n) zs →
  foldl (addSlots t) (replicate n 0) (ys ++ zs) =
  addSlots t (foldl (addSlots t) (replicate n 0) ys)
             (foldl (addSlots t) (replicate n 0) zs).
Proof.
  intros Hys Hzs. rewrite foldl_app.
  set (a := foldl (addSlots t) (replicate n 0) ys).
  assert (Ha : length a = n)
    by (apply foldl_addSlots_length; [apply length_replicate | exact Hys]).
  assert (Ra : inRange a)
    by (apply foldl_addSlots_inRange, replicate_inRange; lia).
  rewrite <- (addSlots_zero_l a) at 1 by assumption.
  rewrite (addSlots_comm (replicate n 0) a) by (rewrite ?length_replicate; auto).
  apply foldl_addSlots_shift; [exact Ha | apply length_replicate | exact Hzs].
Qed.

Lemma fmap_mod_inRange x : inRange x → (fun z => z mod t) <$> x = x.
Proof.
  intros Hx. induction Hx as [|a x Ha Hx IH]; [reflexivity |].
  rewrite fmap_cons, IH. f_equal. apply Z.mod_small, Ha.
Qed.

Lemma mulSlots_one_l x :
  length x = n → inRange x → mulSlots t (replicate n 1) x = x.
Proof.
  intros Hx Rx. apply list_eq; intros i. unfold mulSlots.
  rewrite lookup_zip_with.
  destruct (x !! i) as [z|] eqn:E.
  - pose proof (lookup_lt_Some _ _ _ E).
    rewrite (proj2 (lookup_replicate n 1 1 i)) by (split; [reflexivity | lia]).
    simpl. f_equal. rewrite Z.mul_1_l. apply Z.mod_small.
    eapply inRange_lookup; eassumption.
  - destruct (replicate n 1 !! i); reflexivity.
Qed.

Lemma foldl_mulSlots_length acc xs :
  length acc = n → Forall (fun x => length x = n) xs →
  length (foldl (mulSlots t) acc xs) = n.
Proof.
  intros Hacc Hxs. revert acc Hacc.
  induction Hxs as [|x xs Hx Hxs IH]; intros acc Hacc; simpl; [exact Hacc |].
  apply IH, mulSlots_length; assumption.
Qed.
End Slots.

(** ** The sampler *)

Section Sampler.
Context `{Provider}.

Lemma draws_length k g v mask : length (draws k g v mask).1 = k.
Proof.
  revert g. induction k as [|k IH]; intros g; simpl; [reflexivity |].
  destruct (RandUniform g v mask) as [x g'].
  specialize (IH g'). destruct (draws k g' v mask) as [xs g'']. simpl in *. lia.
Qed.

Lemma draws_S k g v mask :
  draws (S k) g v mask =
  let (x, g') := RandUniform g v mask in
  let (xs, g'') := draws k g' v mask in (x :: xs, g'').
Proof. reflexivity. Qed.

(** One more draw extends the sequence at its end. *)
Lemma draws_snoc k g v mask :
  draws (S k) g v mask =
  let (x, g') := RandUniform (draws k g v mask).2 v mask in
  ((draws k g v mask).1 ++ [x], g').
Proof.
  revert g. induction k as [|k IH]; intros g.
  - simpl. destruct (RandUniform g v mask). reflexivity.
  - rewrite (draws_S (S k) g), (draws_S k g).
    destruct (RandUniform g v mask) as [x g'].
    rewrite IH. destruct (draws k g' v mask) as [xs g'']. simpl.
    destruct (RandUniform g'' v mask). reflexivity.
Qed.

Lemma draws_bound k g v mask :
  (∀ g', 0 <= (RandUniform g' v mask).1 < v) →
  Forall (fun z => 0 <= z < v) (draws k g v mask).1.
Proof.
  intros Hr. revert g. induction k as [|k IH]; intros g; simpl; [constructor |].
  pose proof (Hr g) as Hx. destruct (RandUniform g v mask) as [x g'].
  specialize (IH g'). destruct (draws k g' v mask) as [xs g'']. simpl in *.
  constructor; assumption.
Qed.

Lemma zip_with_snoc (f : Z → Z → Z) (l ms : list Z) (x b : Z) :
  l !! length ms = Some x →
  zip_with f l (ms ++ [b]) = zip_with f l ms ++ [f x b].
Proof.
  revert l. induction ms as [|m ms IH]; intros [|a l] Hl; simplify_eq/=.
  - destruct l; reflexivity.
  - f_equal. apply IH, Hl.
Qed.

(** The loop of [Encrypt] on a vector that fills every slot: the masks
    are the next [MaxSlots] draws and each label is computed from the
    value and the mask of its slot. *)
Lemma Encrypt_loop_draws (params : Parameters) (value : list Z) (g : PRNG) :
  let t := PlaintextModulus (embedded params) in
  let d := draws (MaxSlots (embedded params)) g (maskBound t) (maskBits t) in
  (MaxSlots (embedded params) ≤ length value)%nat →
  Encrypt_loop params value g =
  Some (zip_with (fun vi mask => rem64 (add64 (sub64 vi mask) t) t) value d.1, d.1, d.2).
Proof.
  intros t d Hlen. unfold Encrypt_loop.
  destruct (forRange_invariant
    (fun k st =>
       let dk := draws k g (maskBound t) (maskBits t) in
       st = (zip_with (fun vi mask => rem64 (add64 (sub64 vi mask) t) t) value dk.1,
             dk.1, dk.2))
    (MaxSlots (embedded params)) (Encrypt_body params value) ([], [], g))
    as (st & Hst & ->).
  - simpl. destruct value; reflexivity.
  - intros k st Hk ->.
    destruct (lookup_lt_is_Some_2 value k) as [vi Hvi]; [lia |].
    rewrite draws_snoc. unfold Encrypt_body. fold t.
    destruct (RandUniform (draws k g (maskBound t) (maskBits t)).2
                (maskBound t) (maskBits t)) as [mask g'].
    rewrite Hvi. simpl. eexists. split; [reflexivity |].
    rewrite zip_with_snoc with (x := vi); [reflexivity |].
    rewrite draws_length. exact Hvi.
  - exact Hst.
Qed.

(** The loop of [Encrypt] on a vector shorter than the slot count reads
    past its end. *)
Lemma Encrypt_loop_short (params : Parameters) (value : list Z) (g : PRNG) :
  (length value < MaxSlots (embedded params))%nat →
  Encrypt_loop params value g = None.
Proof.
  intros Hlen. unfold Encrypt_loop.
  apply (forRange_panics (fun _ _ => True) _ _ _ (length value)); [lia | exact I | |].
  - intros k [[A masks] prng] Hk _.
    destruct (lookup_lt_is_Some_2 value k) as [vi Hvi]; [lia |].
    unfold Encrypt_body.
    destruct (RandUniform prng _ _) as [mask g']. rewrite Hvi. simpl. eauto.
  - intros [[A masks] prng] _. unfold Encrypt_body.
    destruct (RandUniform prng _ _) as [mask g'].
    rewrite (lookup_ge_None_2 value) by lia. reflexivity.
Qed.

(** The sampling loop of [Mult] fills [randomVector] with the next
    [MaxSlots] draws. *)
Lemma Mult_sample_draws (params : Parameters) (g : PRNG) :
  let t := PlaintextModulus (embedded params) in
  Mult_sample params g =
  Some (draws (MaxSlots (embedded params)) g (maskBound t) (maskBits t)).
Proof.
  intros t. unfold Mult_sample. fold t.
  set (n := MaxSlots (embedded params)).
  destruct (forRange_invariant
    (fun k st =>
       let dk := draws k g (maskBound t) (maskBits t) in
       st = (dk.1 ++ replicate (n - k) 0, dk.2))
    n
    (fun st i =>
       let '(randomVector, prng) := st in
       let (rand, prng') := RandUniform prng (maskBound t) (maskBits t) in
       Some (<[i:=rand]> randomVector, prng'))
    (make n, g)) as (st & Hst & ->).
  - simpl. rewrite Nat.sub_0_r. reflexivity.
  - intros k st Hk ->. rewrite draws_snoc.
    destruct (RandUniform (draws k g (maskBound t) (maskBits t)).2
                (maskBound t) (maskBits t)) as [rand g'].
    eexists. split; [reflexivity |]. simpl. f_equal.
    rewrite insert_app_r_alt by (rewrite draws_length; lia).
    rewrite draws_length, Nat.sub_diag.
    replace (n - k)%nat with (S (n - S k)) by lia.
    simpl. rewrite <- app_assoc. reflexivity.
  - rewrite Hst, Nat.sub_diag. simpl. rewrite app_nil_r.
    destruct (draws n g (maskBound t) (maskBits t)). reflexivity.
Qed.
(** C10.  In the loop of [Encrypt], for a slot value [m] and a mask [b]
    both in [[0, t)], the uint64 expression [(m - b + t) % t] is the
    mathematical [(m - b) mod t].  When [b > m] the subtraction wraps to
    [m - b + 2^64] and adding [t] wraps back to [m - b + t]; this holds
    for every modulus up to [2^63], so for [0x3ee0001]. *)
Theorem Encrypt_label_exact (params : Parameters) (value A masks : list Z)
    (g g' : PRNG) (i : nat) (m b : Z) :
  let t := PlaintextModulus (embedded params) in
  0 < t <= 2 ^ 63 →
  RandUniform g (maskBound t) (maskBits t) = (b, g') →
  value !! i = Some m →
  0 <= m < t → 0 <= b < t →
  Encrypt_body params value (A, masks, g) i =
    Some (A ++ [(m - b) mod t], masks ++ [b], g') ∧
  (m < b → sub64 m b = m - b + 2 ^ 64 ∧ add64 (sub64 m b) t = m - b + t).
Proof.
  intros t Ht Hr Hv Hm Hb. split.
  - unfold Encrypt_body. fold t. rewrite Hr, Hv. simpl.
    rewrite label_sub by lia. reflexivity.
  - intros Hlt. unfold add64, sub64.
    change wB with (2 ^ 64).
    assert (E : (m - b) mod 2 ^ 64 = m - b + 2 ^ 64).
    { symmetry. apply (Z.mod_unique _ _ (-1)); lia. }
    split; [exact E |].
    rewrite E. symmetry. apply (Z.mod_unique _ _ 1); lia.
Qed.

End Sampler.

(** ** Correctness of the labeled operations *)

Lemma maskBound_bounds (t : Z) : sqrtExact t → 0 < t → 0 < maskBound t <= t.
Proof.
  intros -> Ht. split.
  - apply Z.sqrt_pos, Ht.
  - apply Z.sqrt_le_lin. lia.
Qed.

(** X10.  The bit mask handed to the sampler fits the bound: whenever
    the bound [max] is positive and below [2^63], [(1 << bitlen(max)) - 1]
    is of the form [2^k - 1] with [max <= mask < 2 * max], so every value
    below [max] survives the masking and a masked draw is accepted more
    than half of the time. *)
Theorem maskBits_covers_bound (t : Z) :
  0 < maskBound t < 2 ^ 63 →
  (∃ k, 0 <= k ∧ maskBits t = 2 ^ k - 1) ∧
  maskBound t <= maskBits t < 2 * maskBound t.
Proof.
  intros Hx. unfold maskBits. set (x := maskBound t) in *.
  assert (Hl : 0 <= Z.log2 x < 63).
  { split; [apply Z.log2_nonneg |]. apply Z.log2_lt_pow2; lia. }
  pose proof (Z.log2_spec x (proj1 Hx)) as [Hlo Hhi].
  rewrite <- Z.add_1_r in Hhi.
  unfold Len64. rewrite (proj2 (Z.eqb_neq _ _)) by lia.
  unfold sub64, shl64. rewrite Z.shiftl_1_l.
  assert (Hp : 2 ^ (Z.log2 x + 1) <= 2 ^ 63) by (apply Z.pow_le_mono_r; lia).
  rewrite Z.pow_add_r in * by lia. change (2 ^ 1) with 2 in *.
  rewrite wB_eq, (Z.mod_small (2 ^ Z.log2 x * 2)) by lia.
  rewrite Z.mod_small by lia.
  split; [| lia].
  exists (Z.log2 x + 1). split; [lia |]. rewrite Z.pow_add_r by lia. reflexivity.
Qed.

(** Undoing the mask gives the slot value back. *)
Lemma unmask_slots (t : Z) (v masks : list Z) :
  0 < t →
  length v = length masks →
  Forall (fun z => 0 <= z < t) v →
  addSlots t (zip_with (fun vi mask => (vi - mask) mod t) v masks)
             ((fun z => z mod t) <$> masks) = v.
Proof.
  intros Ht Hlen Hv. revert masks Hlen.
  induction Hv as [|a v Ha Hv IH]; intros [|b masks] Hlen; simplify_eq/=.
  - reflexivity.
  - f_equal; [| apply IH; assumption].
    rewrite <- Zplus_mod. replace (a - b + b) with a by lia.
    apply Z.mod_small, Ha.
Qed.

Section Correctness.
Context `{Provider}.
Variable params : Parameters.
Variable sk : SecretKey.
Variable pk : EncryptionKey.
Variable evk : MemEvaluationKeySet.

Local Abbreviation p := (embedded params).
Local Abbreviation t := (PlaintextModulus (embedded params)).
Local Abbreviation n := (MaxSlots (embedded params)).

Hypothesis laws : Laws p sk pk evk.
Hypothesis modulus : smallModulus t.
Hypothesis sqrt_ok : sqrtExact t.

Lemma t_pos : 0 < t.
Proof. destruct modulus. lia. Qed.

Lemma draws_inRange k g :
  Forall (fun z => 0 <= z < maskBound t) (draws k g (maskBound t) (maskBits t)).1.
Proof.
  apply draws_bound. intros g'. apply (law_RandUniform _ _ _ _ laws).
  apply maskBound_bounds; [exact sqrt_ok | exact t_pos].
Qed.

Lemma decryptSlots_encrypts ct x :
  encrypts p sk ct x → decryptSlots p sk ct = Ok x.
Proof.
  intros (Hdec & Hlen & _). unfold decryptSlots. rewrite Hdec. simpl.
  rewrite <- Hlen, resize_all. reflexivity.
Qed.

Lemma encryptSlots_encrypts w v :
  length v = n →
  ∃ ct, encryptSlots p pk w v = Ok ct ∧
        encrypts p sk ct ((fun z => z mod t) <$> v).
Proof.
  intros Hlen. destruct (law_Encrypt _ _ _ _ laws w v Hlen) as (pt & ct & He & Hc & Hx).
  exists ct. unfold encryptSlots. rewrite He. simpl. auto.
Qed.

(** [Encrypt] on a slot vector: the labels, the masks and the beta. *)
Lemma Encrypt_spec w g v :
  NewPRNG w = Ok g → slotVector p v →
  let masks := (draws n g (maskBound t) (maskBits t)).1 in
  ∃ beta,
    Encrypt params pk w v =
      Ok {| elementsA := zip_with (fun vi mask => (vi - mask) mod t) v masks;
            elementB := [ [beta] ] |} ∧
    encrypts p sk beta ((fun z => z mod t) <$> masks).
Proof.
  intros Hg [Hlen Hv] masks.
  destruct (encryptSlots_encrypts w masks) as (beta & Henc & Hbeta).
  { apply draws_length. }
  exists beta. split; [| exact Hbeta].
  unfold Encrypt. rewrite Hg. simpl.
  rewrite Encrypt_loop_draws by lia. simpl. fold masks. rewrite Henc. simpl.
  do 2 f_equal.
  apply (zip_with_ext_Forall (fun z => 0 <= z < t) (fun z => 0 <= z < maskBound t));
    [exact Hv | apply draws_inRange |].
  intros a b Ha Hb.
  pose proof (maskBound_bounds t sqrt_ok t_pos). destruct modulus.
  apply label_sub; lia.
Qed.

Lemma Encrypt_labelled w g v :
  NewPRNG w = Ok g → slotVector p v →
  ∃ C, Encrypt params pk w v = Ok C ∧ labelled p sk C v.
Proof.
  intros Hg Hv. destruct (Encrypt_spec w g v Hg Hv) as (beta & HE & Hbeta).
  eexists. split; [exact HE |].
  exists beta, ((fun z => z mod t) <$> (draws n g (maskBound t) (maskBits t)).1).
  destruct Hv as [Hlen Hv]. simpl. repeat split; try apply Hbeta.
  - rewrite length_zip_with, draws_length. lia.
  - apply (zip_with_mod_inRange t t_pos Z.sub).
  - symmetry. apply unmask_slots; [exact t_pos | | exact Hv].
    rewrite draws_length. exact Hlen.
Qed.

(** [Decrypt] returns the message a clear-shape ciphertext stands for. *)
Lemma Decrypt_labelled C m :
  labelled p sk C m → Decrypt p sk C = Ok m.
Proof.
  intros (beta & b & HB & Hbeta & [HlenA HA] & ->).
  unfold Decrypt, beta00. rewrite HB. simpl.
  rewrite (decryptSlots_encrypts _ _ Hbeta). simpl.
  destruct Hbeta as (_ & Hlenb & Hb).
  change (forRange (length (elementsA C)) (Decrypt_body t (elementsA C) b) [])
    with (appendEach (fun x y => rem64 (add64 (add64 x y) t) t) (elementsA C) b).
  rewrite appendEach_zip by lia. simpl. f_equal.
  apply (zip_with_ext_Forall (fun z => 0 <= z < t) (fun z => 0 <= z < t));
    [exact HA | exact Hb |].
  intros x y Hx Hy. destruct modulus. apply label_add; lia.
Qed.

(** C3.  Round trip: for every slot vector [v] of [Z_t^n] and key pair
    under which the BGV provider is correct, [Encrypt] succeeds as soon
    as the PRNG could be created, and [Decrypt] of its result returns
    [v]. *)
Theorem Decrypt_Encrypt_roundtrip w g v :
  NewPRNG w = Ok g → slotVector p v →
  ∃ C, Encrypt params pk w v = Ok C ∧ Decrypt p sk C = Ok v.
Proof.
  intros Hg Hv. destruct (Encrypt_labelled w g v Hg Hv) as (C & HE & HC).
  exists C. split; [exact HE |]. apply Decrypt_labelled, HC.
Qed.

Lemma maskBits_eq : maskBits t = 2 ^ (Z.log2 (Z.sqrt t) + 1) - 1.
Proof.
  unfold maskBits. rewrite sqrt_ok. destruct modulus as [H1 H2].
  assert (Hs : 0 < Z.sqrt t) by (apply Z.sqrt_pos; lia).
  assert (Hs2 : Z.sqrt t <= 2 ^ 16).
  { change (2 ^ 16) with (Z.sqrt (2 ^ 32)). apply Z.sqrt_le_mono. lia. }
  assert (Hl : 0 <= Z.log2 (Z.sqrt t) <= 16).
  { split; [apply Z.log2_nonneg |].
    apply (Z.le_trans _ (Z.log2 (2 ^ 16))); [apply Z.log2_le_mono; lia |].
    rewrite Z.log2_pow2; lia. }
  unfold Len64. rewrite (proj2 (Z.eqb_neq _ _)) by lia.
  unfold sub64, shl64. rewrite Z.shiftl_1_l.
  assert (Hp : 0 < 2 ^ (Z.log2 (Z.sqrt t) + 1) <= 2 ^ 17).
  { split; [apply Z.pow_pos_nonneg; lia | apply Z.pow_le_mono_r; lia]. }
  rewrite wB_eq, (Z.mod_small (2 ^ _)) by lia.
  apply Z.mod_small. lia.
Qed.

Lemma Encrypt_loop_inRange v g A masks g' :
  Encrypt_loop params v g = Some (A, masks, g') →
  Forall (fun z => 0 <= z < t) A.
Proof.
  intros HL.
  apply (forRange_preserves (fun _ st => Forall (fun z => 0 <= z < t) st.1.1)
           _ _ _ _ HL); [constructor |].
  intros k [[A1 m1] g1] [[A2 m2] g2] _ HA Hb. unfold Encrypt_body in Hb.
  destruct (RandUniform g1 _ _) as [mask g3].
  destruct (v !! k) as [vi|]; simplify_eq/=.
  apply Forall_app. split; [exact HA |].
  constructor; [| constructor]. apply Z.mod_pos_bound, t_pos.
Qed.

Lemma Mult_labels_inRange a1 a2 r A :
  Mult_labels t a1 a2 r = Some A → Forall (fun z => 0 <= z < t) A.
Proof.
  intros HL.
  apply (forRange_preserves (fun _ out => Forall (fun z => 0 <= z < t) out)
           _ _ _ _ HL); [constructor |].
  intros k out1 out2 _ HA Hb.
  destruct (a1 !! k), (a2 !! k), (r !! k); simplify_eq/=.
  apply Forall_app. split; [exact HA |].
  constructor; [| constructor]. apply Z.mod_pos_bound, t_pos.
Qed.

(** C8.  Label bound: every label stored by [Encrypt] and by [Mult] lies
    in [[0, t)]; the masks of [Encrypt] and the re-randomisation vector
    of [Mult] are the draws of the sampler called with the bound
    [floor(sqrt t)] and the bit mask [(1 << bitlen(floor(sqrt t))) - 1],
    so each of them lies in [[0, floor(sqrt t))]. *)
Theorem label_and_mask_bounds :
  let max := Z.sqrt t in
  let mask := 2 ^ (Z.log2 max + 1) - 1 in
  (∀ w v C, Encrypt params pk w v = Ok C →
      Forall (fun z => 0 <= z < t) (elementsA C)) ∧
  (∀ C1 C2 ek w C, Mult params C1 C2 pk ek w = Ok C →
      Forall (fun z => 0 <= z < t) (elementsA C)) ∧
  (∀ v g A masks g', Encrypt_loop params v g = Some (A, masks, g') →
      (masks, g') = draws n g max mask ∧
      Forall (fun z => 0 <= z < max) masks) ∧
  (∀ g randomVector g', Mult_sample params g = Some (randomVector, g') →
      (randomVector, g') = draws n g max mask ∧
      Forall (fun z => 0 <= z < max) randomVector).
Proof.
  intros max mask.
  assert (Hd : ∀ g, Forall (fun z => 0 <= z < max) (draws n g max mask).1).
  { intros g. apply draws_bound. intros g'.
    apply (law_RandUniform _ _ _ _ laws), Z.sqrt_pos, t_pos. }
  split; [| split; [| split]].
  - intros w v C HE. unfold Encrypt in HE.
    destruct (NewPRNG w) as [g| |]; simplify_eq/=.
    destruct (Encrypt_loop params v g) as [[[A masks] g']|] eqn:HL; simplify_eq/=.
    destruct (encryptSlots p pk w masks); simplify_eq/=.
    eapply Encrypt_loop_inRange, HL.
  - intros C1 C2 ek w C HM. unfold Mult in HM.
    destruct (NewPRNG w) as [g| |]; simplify_eq/=.
    destruct (Mult_sample params g) as [[r g']|]; simplify_eq/=.
    destruct (Mult_labels t (elementsA C1) (elementsA C2) r) as [A|] eqn:HL;
      simplify_eq/=.
    repeat match type of HM with
           | Go.bind ?c _ = _ => destruct c; simplify_eq/=
           end.
    eapply Mult_labels_inRange, HL.
  - intros v g A masks g' HL.
    destruct (decide (n ≤ length v)%nat) as [Hlen|Hlen].
    + rewrite Encrypt_loop_draws in HL by exact Hlen.
      rewrite sqrt_ok, maskBits_eq in HL. fold max mask in HL.
      specialize (Hd g). destruct (draws n g max mask) as [l q].
      simpl in *. simplify_eq. split; [reflexivity | exact Hd].
    + rewrite Encrypt_loop_short in HL by lia. discriminate.
  - intros g r g' HL.
    rewrite Mult_sample_draws, sqrt_ok, maskBits_eq in HL. fold max mask in HL.
    specialize (Hd g). destruct (draws n g max mask) as [l q].
    simpl in *. simplify_eq. split; [reflexivity | exact Hd].
Qed.

(** *** Mult *)

Lemma Mult_labels_spec a1 a2 r :
  slotVector p a1 → slotVector p a2 →
  length r = n → Forall (fun z => 0 <= z < maskBound t) r →
  Mult_labels t a1 a2 r =
  Some (zip_with (fun q z => (q - z) mod t) (zip_with Z.mul a1 a2) r).
Proof.
  intros [L1 R1] [L2 R2] Lr Rr. unfold Mult_labels.
  rewrite (forRange_ext _
    (fun out k =>
       z ← (x ← a1 !! k; y ← a2 !! k; r0 ← r !! k;
            Some (rem64 (add64 (sub64 (mul64 x y) r0) t) t));
       Some (out ++ [z]))).
  - apply (forRange_append
      (fun _ k => x ← a1 !! k; y ← a2 !! k; r0 ← r !! k;
                  Some (rem64 (add64 (sub64 (mul64 x y) r0) t) t))).
    + rewrite !length_zip_with. lia.
    + intros k Hk. rewrite !lookup_zip_with.
      destruct (a1 !! k) as [x|] eqn:E1; [| reflexivity].
      destruct (a2 !! k) as [y|] eqn:E2; [| reflexivity].
      destruct (r !! k) as [z|] eqn:E3; [| reflexivity].
      simpl. f_equal.
      pose proof (Forall_lookup_1 _ _ _ _ R1 E1) as Hx.
      pose proof (Forall_lookup_1 _ _ _ _ R2 E2) as Hy.
      pose proof (Forall_lookup_1 _ _ _ _ Rr E3) as Hz. simpl in Hx, Hy, Hz.
      pose proof (maskBound_bounds t sqrt_ok t_pos). destruct modulus.
      apply label_mul; lia.
  - intros out k. destruct (a1 !! k), (a2 !! k), (r !! k); reflexivity.
Qed.

(** The slot-wise identity behind [Mult]:
    [(a1 + b1)(a2 + b2) = (a1 a2 - r) + (b1 b2 + b1 a2 + b2 a1 + r)]. *)
Lemma Mult_slots a1 a2 b1 b2 r :
  length a1 = n → length a2 = n → length b1 = n → length b2 = n → length r = n →
  mulSlots t (addSlots t a1 b1) (addSlots t a2 b2) =
  addSlots t (zip_with (fun q z => (q - z) mod t) (zip_with Z.mul a1 a2) r)
    (addSlots t
       (addSlots t (addSlots t (mulSlots t b1 b2) (mulSlots t b1 a2))
                   (mulSlots t b2 a1))
       ((fun z => z mod t) <$> r)).
Proof.
  intros L1 L2 L3 L4 L5. slotwise i. f_equal. Z.mod_equality.
Qed.

(** [Mult] on two clear-shape ciphertexts: every BGV step succeeds, the
    label and the beta have the documented form, and the result stands
    for the slot-wise product. *)
Lemma Mult_spec C1 C2 m1 m2 beta1 beta2 w g :
  labelled p sk C1 m1 → labelled p sk C2 m2 →
  elementB C1 = [ [beta1] ] → elementB C2 = [ [beta2] ] →
  NewPRNG w = Ok g →
  let a1 := elementsA C1 in
  let a2 := elementsA C2 in
  let r := (draws n g (maskBound t) (maskBits t)).1 in
  ∃ prod c1 acc1 c2 acc2 cr acc3,
    MulRelin p (Some evk) beta1 beta2 = Ok prod ∧
    MulVector p (Some evk) beta1 a2 = Ok c1 ∧
    Add p (Some evk) prod c1 = Ok acc1 ∧
    MulVector p (Some evk) beta2 a1 = Ok c2 ∧
    Add p (Some evk) acc1 c2 = Ok acc2 ∧
    encryptSlots p pk w r = Ok cr ∧
    Add p (Some evk) acc2 cr = Ok acc3 ∧
    Mult params C1 C2 pk (Some evk) w =
      Ok {| elementsA := zip_with (fun q z => (q - z) mod t) (zip_with Z.mul a1 a2) r;
            elementB := [ [acc3] ] |} ∧
    labelled p sk
      {| elementsA := zip_with (fun q z => (q - z) mod t) (zip_with Z.mul a1 a2) r;
         elementB := [ [acc3] ] |} (mulSlots t m1 m2).
Proof.
  intros (be1 & b1 & HB1 & Hb1 & HA1 & ->) (be2 & b2 & HB2 & Hb2 & HA2 & ->)
    HB1' HB2' Hg a1 a2 r.
  rewrite HB1 in HB1'. rewrite HB2 in HB2'. simplify_eq.
  assert (Lr : length r = n) by apply draws_length.
  pose proof (draws_inRange n g) as Rr. fold r in Rr.
  destruct (law_MulRelin _ _ _ _ laws _ _ _ _ Hb1 Hb2) as (prod & Hprod & Eprod).
  destruct (law_MulVector _ _ _ _ laws (Some evk) _ _ a2 Hb1 (proj1 HA2))
    as (c1 & Hc1 & Ec1).
  destruct (law_Add _ _ _ _ laws (Some evk) _ _ _ _ Eprod Ec1) as (acc1 & Hacc1 & Eacc1).
  destruct (law_MulVector _ _ _ _ laws (Some evk) _ _ a1 Hb2 (proj1 HA1))
    as (c2 & Hc2 & Ec2).
  destruct (law_Add _ _ _ _ laws (Some evk) _ _ _ _ Eacc1 Ec2) as (acc2 & Hacc2 & Eacc2).
  destruct (encryptSlots_encrypts w r Lr) as (cr & Hcr & Ecr).
  destruct (law_Add _ _ _ _ laws (Some evk) _ _ _ _ Eacc2 Ecr) as (acc3 & Hacc3 & Eacc3).
  exists prod, c1, acc1, c2, acc2, cr, acc3.
  repeat (split; [assumption |]). split.
  - unfold Mult, beta00. rewrite Hg. simpl.
    rewrite Mult_sample_draws. simpl.
    destruct (draws n g (maskBound t) (maskBits t)) as [r' g'] eqn:Ed.
    simpl in r. subst r. simpl.
    rewrite Mult_labels_spec by assumption. simpl.
    rewrite HB1, HB2. simpl.
    fold a1 a2. rewrite Hprod. simpl. rewrite Hc1. simpl. rewrite Hacc1. simpl.
    rewrite Hc2. simpl. rewrite Hacc2. simpl. rewrite Hcr. simpl.
    rewrite Hacc3. reflexivity.
  - eexists acc3, _. simpl. split; [reflexivity |]. split; [exact Eacc3 |].
    destruct HA1 as [L1 R1], HA2 as [L2 R2].
    destruct Hb1 as (_ & Lb1 & _), Hb2 as (_ & Lb2 & _).
    split; [split |].
    + rewrite !length_zip_with. fold a1 a2 in L1, L2. lia.
    + apply (zip_with_mod_inRange t t_pos Z.sub).
    + apply Mult_slots; assumption.
Qed.

(** C1.  Multiplicative homomorphism: for slot vectors [v1], [v2] of
    [Z_t^n], [Mult] of their encryptions succeeds and decrypts to the
    slot-wise product mod [t]; its label is [(a1[i]*a2[i] - r[i]) mod t]
    for the freshly drawn [r], and its beta is
    [MulRelin(β1, β2) + β1*a2 + β2*a1 + Enc_pk(r)]. *)
Theorem Mult_homomorphic w1 w2 w3 g1 g2 g3 v1 v2 :
  NewPRNG w1 = Ok g1 → NewPRNG w2 = Ok g2 → NewPRNG w3 = Ok g3 →
  slotVector p v1 → slotVector p v2 →
  ∃ a1 a2 beta1 beta2 betaOut,
    Encrypt params pk w1 v1 = Ok {| elementsA := a1; elementB := [ [beta1] ] |} ∧
    Encrypt params pk w2 v2 = Ok {| elementsA := a2; elementB := [ [beta2] ] |} ∧
    let r := (draws n g3 (Z.sqrt t) (2 ^ (Z.log2 (Z.sqrt t) + 1) - 1)).1 in
    let Aout := zip_with (fun q z => (q - z) mod t) (zip_with Z.mul a1 a2) r in
    Mult params
      {| elementsA := a1; elementB := [ [beta1] ] |}
      {| elementsA := a2; elementB := [ [beta2] ] |} pk (Some evk) w3 =
      Ok {| elementsA := Aout; elementB := [ [betaOut] ] |} ∧
    (∃ prod c1 acc1 c2 acc2 cr,
       MulRelin p (Some evk) beta1 beta2 = Ok prod ∧
       MulVector p (Some evk) beta1 a2 = Ok c1 ∧
       Add p (Some evk) prod c1 = Ok acc1 ∧
       MulVector p (Some evk) beta2 a1 = Ok c2 ∧
       Add p (Some evk) acc1 c2 = Ok acc2 ∧
       encryptSlots p pk w3 r = Ok cr ∧
       Add p (Some evk) acc2 cr = Ok betaOut) ∧
    Decrypt p sk {| elementsA := Aout; elementB := [ [betaOut] ] |} =
      Ok (mulSlots t v1 v2).
Proof.
  intros Hg1 Hg2 Hg3 Hv1 Hv2.
  destruct (Encrypt_spec w1 g1 v1 Hg1 Hv1) as (beta1 & HE1 & _).
  destruct (Encrypt_spec w2 g2 v2 Hg2 Hv2) as (beta2 & HE2 & _).
  destruct (Encrypt_labelled w1 g1 v1 Hg1 Hv1) as (C1 & HE1' & HC1).
  destruct (Encrypt_labelled w2 g2 v2 Hg2 Hv2) as (C2 & HE2' & HC2).
  rewrite HE1 in HE1'. rewrite HE2 in HE2'. simplify_eq.
  destruct (Mult_spec _ _ _ _ beta1 beta2 w3 g3 HC1 HC2 eq_refl eq_refl Hg3)
    as (prod & c1 & acc1 & c2 & acc2 & cr & acc3 &
        Hprod & Hc1 & Hacc1 & Hc2 & Hacc2 & Hcr & Hacc3 & HM & HL).
  rewrite sqrt_ok, maskBits_eq in HE1, HE2, Hc1, Hc2, Hcr, HM, HL. simpl in *.
  eexists _, _, beta1, beta2, acc3.
  split; [exact HE1 |]. split; [exact HE2 |].
  split; [exact HM |]. split.
  - exists prod, c1, acc1, c2, acc2, cr. auto 10.
  - apply Decrypt_labelled, HL.
Qed.

(** *** The encrypted shape *)

Lemma encrypts_length ct x : encrypts p sk ct x → length x = n.
Proof. intros (_ & L & _). exact L. Qed.

Lemma encrypts_inRange ct x : encrypts p sk ct x → Forall (fun z => 0 <= z < t) x.
Proof. intros (_ & _ & R). exact R. Qed.

Lemma inRange_word (x : list Z) :
  Forall (fun z => 0 <= z < t) x → Forall (fun z => 0 <= z < 2 ^ 32) x.
Proof.
  intros Hx. eapply Forall_impl; [exact Hx |].
  intros z Hz. simpl in Hz. destruct modulus. lia.
Qed.

Lemma Forall2_encrypts_length term xs :
  Forall2 (encrypts p sk) term xs → Forall (fun x => length x = n) xs.
Proof.
  induction 1 as [|c x term xs Hc _ IH]; constructor; [| exact IH].
  eapply encrypts_length, Hc.
Qed.

(** The value of a term is a slot vector. *)
Lemma termValue_slotVector term y : decryptsTerm p sk term y → slotVector p y.
Proof.
  intros (xs & Hxs & ->). unfold termValue. split.
  - apply foldl_mulSlots_length; [apply length_replicate |].
    eapply Forall2_encrypts_length, Hxs.
  - destruct Hxs as [|c x term xs Hc Hxs]; simpl.
    + apply Forall_replicate. destruct modulus. lia.
    + clear Hc. generalize (mulSlots t (replicate n 1) x), (mulSlots_inRange t t_pos (replicate n 1) x).
      induction Hxs as [|c' x' term xs _ _ IH]; intros acc Hacc; simpl; [exact Hacc |].
      apply IH, mulSlots_inRange, t_pos.
Qed.

Lemma Forall2_decryptsTerm_length B ys :
  Forall2 (decryptsTerm p sk) B ys → Forall (fun y => length y = n) ys.
Proof.
  induction 1 as [|term y B ys Hy _ IH]; constructor; [| exact IH].
  apply (termValue_slotVector _ _ Hy).
Qed.

Lemma bundleValue_slotVector ys :
  Forall (fun y => length y = n) ys → slotVector p (bundleValue p ys).
Proof.
  intros Hys. split.
  - apply foldl_addSlots_length; [apply length_replicate | exact Hys].
  - apply foldl_addSlots_inRange; [exact t_pos |].
    apply Forall_replicate. pose proof t_pos. lia.
Qed.

(** The inner loop of [DecryptOverflow] multiplies the decrypted factors
    into the accumulator. *)
Lemma DecryptOverflow_factors_spec term xs acc :
  Forall2 (encrypts p sk) term xs →
  length acc = n → Forall (fun z => 0 <= z < 2 ^ 32) acc →
  DecryptOverflow_factors params sk acc term = Ok (foldl (mulSlots t) acc xs).
Proof.
  intros Hxs. revert acc.
  induction Hxs as [|c x term xs Hc _ IH]; intros acc Lacc Racc; simpl.
  - reflexivity.
  - rewrite (decryptSlots_encrypts _ _ Hc). simpl.
    rewrite updateEach_zip by (auto; eapply encrypts_length, Hc). simpl.
    replace (zip_with (fun m b => rem64 (mul64 m b) t) acc x) with (mulSlots t acc x).
    + apply IH.
      * apply mulSlots_length; [exact Lacc | eapply encrypts_length, Hc].
      * apply inRange_word, mulSlots_inRange, t_pos.
    + symmetry.
      apply (zip_with_ext_Forall (fun z => 0 <= z < 2 ^ 32) (fun z => 0 <= z < 2 ^ 32));
        [exact Racc | eapply inRange_word, encrypts_inRange, Hc |].
      intros a b Ha Hb. apply rem_mul; assumption.
Qed.

(** The outer loop adds the value of every term into the accumulator. *)
Lemma DecryptOverflow_terms_spec B ys acc :
  Forall2 (decryptsTerm p sk) B ys →
  length acc = n → Forall (fun z => 0 <= z < t) acc →
  DecryptOverflow_terms params sk acc B = Ok (foldl (addSlots t) acc ys).
Proof.
  intros HB. revert acc.
  induction HB as [|term y B ys Hy _ IH]; intros acc Lacc Racc; simpl.
  - reflexivity.
  - pose proof (termValue_slotVector _ _ Hy) as [Ly Ry].
    destruct Hy as (xs & Hxs & ->).
    unfold make. rewrite fmap_replicate.
    rewrite (DecryptOverflow_factors_spec _ _ _ Hxs)
      by (rewrite ?length_replicate; auto; apply Forall_replicate; lia).
    simpl. fold (termValue p xs).
    rewrite updateEach_zip by assumption. simpl.
    replace (zip_with (fun s m => rem64 (add64 s m) t) acc (termValue p xs))
      with (addSlots t acc (termValue p xs)).
    + apply IH; [apply addSlots_length; assumption | apply addSlots_inRange, t_pos].
    + symmetry.
      apply (zip_with_ext_Forall (fun z => 0 <= z < t) (fun z => 0 <= z < t));
        [exact Racc | exact Ry |].
      intros a b Ha Hb. destruct modulus. apply rem_add; lia.
Qed.

(** [DecryptOverflow] returns the message an encrypted-shape ciphertext
    stands for. *)
Lemma DecryptOverflow_overflowed C m :
  overflowed p sk C m → DecryptOverflow params sk C = Ok m.
Proof.
  intros (alpha & x & ys & HA & Hx & HB & ->).
  unfold DecryptOverflow. rewrite HA. simpl.
  rewrite (decryptSlots_encrypts _ _ Hx). simpl.
  rewrite (DecryptOverflow_terms_spec _ _ _ HB)
    by (unfold make; rewrite ?length_replicate; auto;
        apply Forall_replicate; pose proof t_pos; lia).
  simpl. change (foldl (addSlots t) (make n) ys) with (bundleValue p ys).
  pose proof (bundleValue_slotVector ys (Forall2_decryptsTerm_length _ _ HB)) as [Ls Rs].
  pose proof (encrypts_length _ _ Hx) as Lx.
  pose proof (encrypts_inRange _ _ Hx) as Rx.
  rewrite (forRange_ext _
    (fun value i =>
       z ← (a ← x !! i; s0 ← bundleValue p ys !! i;
            Some (rem64 (add64 (add64 a s0) t) t));
       Some (<[i:=z]> value))).
  - rewrite (forRange_insert
      (fun _ i => a ← x !! i; s0 ← bundleValue p ys !! i;
                  Some (rem64 (add64 (add64 a s0) t) t))
      (zip_with (fun a s0 => rem64 (add64 (add64 a s0) t) t) x (bundleValue p ys))).
    + simpl. f_equal.
      apply (zip_with_ext_Forall (fun z => 0 <= z < t) (fun z => 0 <= z < t));
        [exact Rx | exact Rs |].
      intros a b Ha Hb. destruct modulus. apply label_add; lia.
    + apply length_replicate.
    + rewrite length_zip_with. lia.
    + intros k _. symmetry. apply lookup_zip_with.
  - intros value i. destruct (x !! i), (bundleValue p ys !! i); reflexivity.
Qed.

(** *** MultOverflow *)

Lemma MultOverflow_product_spec a1 a2 :
  slotVector p a1 → slotVector p a2 →
  MultOverflow_product t a1 a2 = Some (mulSlots t a1 a2).
Proof.
  intros [L1 R1] [L2 R2]. unfold MultOverflow_product.
  rewrite (forRange_ext _
    (fun d k => z ← (x ← a1 !! k; y ← a2 !! k; Some (rem64 (mul64 x y) t));
                Some (<[k:=z]> d))).
  - rewrite (forRange_insert
      (fun _ k => x ← a1 !! k; y ← a2 !! k; Some (rem64 (mul64 x y) t))
      (zip_with (fun x y => rem64 (mul64 x y) t) a1 a2)).
    + f_equal.
      apply (zip_with_ext_Forall (fun z => 0 <= z < 2 ^ 32) (fun z => 0 <= z < 2 ^ 32));
        [apply inRange_word, R1 | apply inRange_word, R2 |].
      intros a b Ha Hb. apply rem_mul; assumption.
    + apply length_replicate.
    + rewrite length_zip_with. lia.
    + intros k _. symmetry. apply lookup_zip_with.
  - intros d k. destruct (a1 !! k), (a2 !! k); reflexivity.
Qed.

(** The slot-wise identity behind [MultOverflow]:
    [(a1 a2 + b2 a1 + b1 a2) + b1 b2 = (a1 + b1)(a2 + b2)]. *)
Lemma MultOverflow_slots a1 a2 b1 b2 :
  length a1 = n → length a2 = n → length b1 = n → length b2 = n →
  addSlots t
    (addSlots t (addSlots t (mulSlots t a1 a2) (mulSlots t b2 a1)) (mulSlots t b1 a2))
    (mulSlots t b1 b2) =
  mulSlots t (addSlots t a1 b1) (addSlots t a2 b2).
Proof.
  intros L1 L2 L3 L4. slotwise i. f_equal. Z.mod_equality.
Qed.

(** A term of one factor is worth that factor, a term of two factors
    their product, and a bundle of one term that term. *)
Lemma termValue_one b : slotVector p b → termValue p [b] = b.
Proof. intros [L R]. apply mulSlots_one_l; assumption. Qed.

Lemma termValue_two b1 b2 :
  slotVector p b1 → termValue p [b1; b2] = mulSlots t b1 b2.
Proof.
  intros Hb. unfold termValue. simpl.
  change (mulSlots t (replicate n 1) b1) with (termValue p [b1]).
  rewrite termValue_one by exact Hb. reflexivity.
Qed.

Lemma bundleValue_one y : slotVector p y → bundleValue p [y] = y.
Proof. intros [L R]. apply addSlots_zero_l; assumption. Qed.

Lemma MultOverflow_spec C1 C2 m1 m2 beta1 beta2 w :
  labelled p sk C1 m1 → labelled p sk C2 m2 →
  elementB C1 = [ [beta1] ] → elementB C2 = [ [beta2] ] →
  ∃ alpha x b1 b2,
    MultOverflow params C1 C2 pk w =
      Ok {| elementsA := Some alpha; elementB := [ [beta1; beta2] ] |} ∧
    encrypts p sk alpha x ∧ encrypts p sk beta1 b1 ∧ encrypts p sk beta2 b2 ∧
    addSlots t x (mulSlots t b1 b2) = mulSlots t m1 m2 ∧
    overflowed p sk
      {| elementsA := Some alpha; elementB := [ [beta1; beta2] ] |}
      (mulSlots t m1 m2).
Proof.
  intros (be1 & b1 & HB1 & Hb1 & HA1 & ->) (be2 & b2 & HB2 & Hb2 & HA2 & ->)
    HB1' HB2'.
  rewrite HB1 in HB1'. rewrite HB2 in HB2'. simplify_eq.
  set (a1 := elementsA C1) in *. set (a2 := elementsA C2) in *.
  pose proof (encrypts_length _ _ Hb1) as Lb1.
  pose proof (encrypts_length _ _ Hb2) as Lb2.
  destruct (encryptSlots_encrypts w (mulSlots t a1 a2)) as (gamma & Hgamma & Egamma).
  { apply mulSlots_length; [apply HA1 | apply HA2]. }
  rewrite (fmap_mod_inRange t) in Egamma by apply mulSlots_inRange, t_pos.
  destruct (law_MulVector _ _ _ _ laws None _ _ a1 Hb2 (proj1 HA1)) as (c1 & Hc1 & Ec1).
  destruct (law_MulVector _ _ _ _ laws None _ _ a2 Hb1 (proj1 HA2)) as (c2 & Hc2 & Ec2).
  destruct (law_Add _ _ _ _ laws None _ _ _ _ Egamma Ec1) as (alpha0 & Ha0 & Ea0).
  destruct (law_Add _ _ _ _ laws None _ _ _ _ Ea0 Ec2) as (alpha & Ha & Ea).
  assert (Hid : addSlots t
    (addSlots t (addSlots t (mulSlots t a1 a2) (mulSlots t b2 a1)) (mulSlots t b1 a2))
    (mulSlots t b1 b2) = mulSlots t (addSlots t a1 b1) (addSlots t a2 b2)).
  { apply MultOverflow_slots; [apply HA1 | apply HA2 | exact Lb1 | exact Lb2]. }
  eexists alpha, _, b1, b2.
  split; [| split; [exact Ea | split; [exact Hb1 | split; [exact Hb2 | split;
           [exact Hid |]]]]].
  - unfold MultOverflow, beta00.
    rewrite MultOverflow_product_spec by assumption. simpl. fold a1 a2.
    rewrite Hgamma. simpl. rewrite HB2. simpl. rewrite Hc1. simpl.
    rewrite HB1. simpl. rewrite Hc2. simpl. rewrite Ha0. simpl. rewrite Ha.
    reflexivity.
  - eexists alpha, _, [termValue p [b1; b2]]. simpl.
    split; [reflexivity |]. split; [exact Ea |]. split.
    + constructor; [| constructor]. exists [b1; b2]. split; [| reflexivity].
      constructor; [exact Hb1 |]. constructor; [exact Hb2 | constructor].
    + rewrite termValue_two by apply Hb1.
      rewrite bundleValue_one; [symmetry; exact Hid |].
      split; [apply mulSlots_length; assumption | apply mulSlots_inRange, t_pos].
Qed.

(** C2.  Overflow multiplication: for slot vectors [v1], [v2], the
    [MultOverflow] of their encryptions returns [α] with bundle
    [[[β1, β2]]], where [Dec(α) + Dec(β1)·Dec(β2) = v1·v2 (mod t)]
    slot-wise, and [DecryptOverflow] of it is [(v1[i]*v2[i]) mod t]. *)
Theorem MultOverflow_correct w1 w2 w3 g1 g2 v1 v2 :
  NewPRNG w1 = Ok g1 → NewPRNG w2 = Ok g2 →
  slotVector p v1 → slotVector p v2 →
  ∃ a1 a2 beta1 beta2 alpha x b1 b2,
    Encrypt params pk w1 v1 = Ok {| elementsA := a1; elementB := [ [beta1] ] |} ∧
    Encrypt params pk w2 v2 = Ok {| elementsA := a2; elementB := [ [beta2] ] |} ∧
    MultOverflow params
      {| elementsA := a1; elementB := [ [beta1] ] |}
      {| elementsA := a2; elementB := [ [beta2] ] |} pk w3 =
      Ok {| elementsA := Some alpha; elementB := [ [beta1; beta2] ] |} ∧
    encrypts p sk alpha x ∧ encrypts p sk beta1 b1 ∧ encrypts p sk beta2 b2 ∧
    addSlots t x (mulSlots t b1 b2) = mulSlots t v1 v2 ∧
    DecryptOverflow params sk
      {| elementsA := Some alpha; elementB := [ [beta1; beta2] ] |} =
      Ok (mulSlots t v1 v2).
Proof.
  intros Hg1 Hg2 Hv1 Hv2.
  destruct (Encrypt_spec w1 g1 v1 Hg1 Hv1) as (beta1 & HE1 & _).
  destruct (Encrypt_spec w2 g2 v2 Hg2 Hv2) as (beta2 & HE2 & _).
  destruct (Encrypt_labelled w1 g1 v1 Hg1 Hv1) as (C1 & HE1' & HC1).
  destruct (Encrypt_labelled w2 g2 v2 Hg2 Hv2) as (C2 & HE2' & HC2).
  rewrite HE1 in HE1'. rewrite HE2 in HE2'. simplify_eq.
  destruct (MultOverflow_spec _ _ _ _ beta1 beta2 w3 HC1 HC2 eq_refl eq_refl)
    as (alpha & x & b1 & b2 & HM & Ea & Eb1 & Eb2 & Hid & HO).
  eexists _, _, beta1, beta2, alpha, x, b1, b2.
  split; [exact HE1 |]. split; [exact HE2 |]. split; [exact HM |].
  repeat (split; [assumption |]).
  apply DecryptOverflow_overflowed, HO.
Qed.

(** *** SumOverflow and SumOverflowCiphertext *)

Lemma bundleValue_app ys zs :
  Forall (fun y => length y = n) ys → Forall (fun y => length y = n) zs →
  bundleValue p (ys ++ zs) = addSlots t (bundleValue p ys) (bundleValue p zs).
Proof. intros Hys Hzs. apply (foldl_addSlots_app t n t_pos); assumption. Qed.

Lemma sum_slots x1 s1 x2 s2 :
  length x1 = n → length s1 = n → length x2 = n → length s2 = n →
  addSlots t (addSlots t x1 x2) (addSlots t s1 s2) =
  addSlots t (addSlots t x1 s1) (addSlots t x2 s2).
Proof. intros L1 L2 L3 L4. slotwise i. f_equal. Z.mod_equality. Qed.

Lemma SumOverflow_spec C1 C2 m1 m2 :
  overflowed p sk C1 m1 → labelled p sk C2 m2 →
  ∃ alpha alpha',
    elementsA C1 = Some alpha ∧
    AddVector p None alpha (elementsA C2) = Ok alpha' ∧
    SumOverflow params C1 C2 =
      Ok {| elementsA := Some alpha'; elementB := elementB C1 ++ elementB C2 |} ∧
    overflowed p sk
      {| elementsA := Some alpha'; elementB := elementB C1 ++ elementB C2 |}
      (addSlots t m1 m2).
Proof.
  intros (alpha & x & ys & HA & Hx & HB & ->) (beta & b & HB2 & Hb & HA2 & ->).
  destruct (law_AddVector _ _ _ _ laws None _ _ (elementsA C2) Hx (proj1 HA2))
    as (alpha' & Hadd & Ealpha').
  exists alpha, alpha'. split; [exact HA |]. split; [exact Hadd |]. split.
  - unfold SumOverflow. rewrite HA. simpl. rewrite Hadd. reflexivity.
  - pose proof (Forall2_decryptsTerm_length _ _ HB) as Lys.
    pose proof (bundleValue_slotVector _ Lys) as [LS _].
    assert (Sb : slotVector p b) by apply Hb.
    eexists alpha', _, (ys ++ [termValue p [b]]). simpl.
    split; [reflexivity |]. split; [exact Ealpha' |]. split.
    + rewrite HB2. apply Forall2_app; [exact HB |].
      constructor; [| constructor]. exists [b]. split; [| reflexivity].
      constructor; [exact Hb | constructor].
    + rewrite termValue_one by exact Sb.
      rewrite bundleValue_app;
        [| exact Lys | constructor; [apply Sb | constructor] ].
      rewrite bundleValue_one by exact Sb.
      symmetry. apply sum_slots;
        [eapply encrypts_length, Hx | exact LS | apply HA2 | apply Sb].
Qed.

Lemma SumOverflowCiphertext_spec Ca Cb ma mb :
  overflowed p sk Ca ma → overflowed p sk Cb mb →
  ∃ alphaA alphaB alpha,
    elementsA Ca = Some alphaA ∧ elementsA Cb = Some alphaB ∧
    Add p None alphaA alphaB = Ok alpha ∧
    SumOverflowCiphertext params Ca Cb =
      Ok {| elementsA := Some alpha; elementB := elementB Ca ++ elementB Cb |} ∧
    overflowed p sk
      {| elementsA := Some alpha; elementB := elementB Ca ++ elementB Cb |}
      (addSlots t ma mb).
Proof.
  intros (alphaA & xa & ysa & HAa & Hxa & HBa & ->)
         (alphaB & xb & ysb & HAb & Hxb & HBb & ->).
  destruct (law_Add _ _ _ _ laws None _ _ _ _ Hxa Hxb) as (alpha & Hadd & Ealpha).
  exists alphaA, alphaB, alpha.
  split; [exact HAa |]. split; [exact HAb |]. split; [exact Hadd |]. split.
  - unfold SumOverflowCiphertext. rewrite HAa, HAb. simpl. rewrite Hadd. reflexivity.
  - pose proof (Forall2_decryptsTerm_length _ _ HBa) as La.
    pose proof (Forall2_decryptsTerm_length _ _ HBb) as Lb.
    pose proof (bundleValue_slotVector _ La) as [LSa _].
    pose proof (bundleValue_slotVector _ Lb) as [LSb _].
    eexists alpha, _, (ysa ++ ysb). simpl.
    split; [reflexivity |]. split; [exact Ealpha |]. split.
    + apply Forall2_app; assumption.
    + rewrite bundleValue_app by assumption.
      symmetry. apply sum_slots;
        [eapply encrypts_length, Hxa | exact LSa | eapply encrypts_length, Hxb | exact LSb].
Qed.

(** C5.  Bundle concatenation: for two encrypted-shape ciphertexts
    standing for [ma] and [mb], [SumOverflowCiphertext] returns the BGV
    sum of the two alphas with the bundle [B_a ++ B_b], unchanged in
    order and number of terms, and [DecryptOverflow] of the result is
    the slot-wise sum mod [t] of what the operands decrypt to. *)
Theorem SumOverflowCiphertext_concat Ca Cb ma mb :
  overflowed p sk Ca ma → overflowed p sk Cb mb →
  ∃ alphaA alphaB alpha C,
    elementsA Ca = Some alphaA ∧ elementsA Cb = Some alphaB ∧
    Add p None alphaA alphaB = Ok alpha ∧
    SumOverflowCiphertext params Ca Cb = Ok C ∧
    elementsA C = Some alpha ∧
    elementB C = elementB Ca ++ elementB Cb ∧
    DecryptOverflow params sk Ca = Ok ma ∧
    DecryptOverflow params sk Cb = Ok mb ∧
    DecryptOverflow params sk C = Ok (addSlots t ma mb).
Proof.
  intros Ha Hb.
  destruct (SumOverflowCiphertext_spec _ _ _ _ Ha Hb)
    as (alphaA & alphaB & alpha & HAa & HAb & Hadd & HS & HO).
  eexists alphaA, alphaB, alpha, _.
  split; [exact HAa |]. split; [exact HAb |]. split; [exact Hadd |].
  split; [exact HS |]. split; [reflexivity |]. split; [reflexivity |].
  split; [apply DecryptOverflow_overflowed, Ha |].
  split; [apply DecryptOverflow_overflowed, Hb |].
  apply DecryptOverflow_overflowed, HO.
Qed.

Lemma chain_slots v1 v2 :
  length v1 = n → length v2 = n →
  addSlots t (mulSlots t v1 (mulSlots t v1 v2)) v1 =
  zip_with (fun a b => ((a * b) * a + a) mod t) v1 v2.
Proof.
  intros L1 L2. slotwise i. f_equal. Z.mod_equality.
Qed.

(** C4.  Mixed depth-2 chain: for slot vectors [v1], [v2], every step of
    [SumOverflow(MultOverflow(E(v1), Mult(E(v1), E(v2))), E(v1))]
    succeeds and [DecryptOverflow] of the result is
    [((v1[i]*v2[i])*v1[i] + v1[i]) mod t]; [SumOverflow] adds the clear
    label of [E(v1)] to [α] as a plaintext slot vector and appends the
    single-beta bundle of [E(v1)]. *)
Theorem overflow_chain w1 w2 w3 w4 g1 g2 g3 v1 v2 :
  NewPRNG w1 = Ok g1 → NewPRNG w2 = Ok g2 → NewPRNG w3 = Ok g3 →
  slotVector p v1 → slotVector p v2 →
  ∃ C1 C2 CM CO CS alpha alpha' beta1,
    Encrypt params pk w1 v1 = Ok C1 ∧
    Encrypt params pk w2 v2 = Ok C2 ∧
    Mult params C1 C2 pk (Some evk) w3 = Ok CM ∧
    MultOverflow params C1 CM pk w4 = Ok CO ∧
    SumOverflow params CO C1 = Ok CS ∧
    elementsA CO = Some alpha ∧
    AddVector p None alpha (elementsA C1) = Ok alpha' ∧
    elementsA CS = Some alpha' ∧
    elementB C1 = [ [beta1] ] ∧
    elementB CS = elementB CO ++ [ [beta1] ] ∧
    DecryptOverflow params sk CS =
      Ok (zip_with (fun a b => ((a * b) * a + a) mod t) v1 v2).
Proof.
  intros Hg1 Hg2 Hg3 Hv1 Hv2.
  destruct (Encrypt_labelled w1 g1 v1 Hg1 Hv1) as (C1 & HE1 & HC1).
  destruct (Encrypt_labelled w2 g2 v2 Hg2 Hv2) as (C2 & HE2 & HC2).
  pose proof HC1 as (beta1 & b1 & HB1 & _).
  pose proof HC2 as (beta2 & b2 & HB2 & _).
  destruct (Mult_spec _ _ _ _ beta1 beta2 w3 g3 HC1 HC2 HB1 HB2 Hg3)
    as (prod & c1 & acc1 & c2 & acc2 & cr & acc3 & _ & _ & _ & _ & _ & _ & _ & HM & HCM).
  destruct (MultOverflow_spec _ _ _ _ beta1 acc3 w4 HC1 HCM HB1 eq_refl)
    as (alphaO & x & b1' & b3 & HMO & _ & _ & _ & _ & HCO).
  destruct (SumOverflow_spec _ _ _ _ HCO HC1)
    as (alpha & alpha' & HAO & Hadd & HS & HCS).
  eexists C1, C2, _, _, _, alpha, alpha', beta1.
  split; [exact HE1 |]. split; [exact HE2 |]. split; [exact HM |].
  split; [exact HMO |]. split; [exact HS |]. split; [exact HAO |].
  split; [exact Hadd |]. split; [reflexivity |]. split; [exact HB1 |].
  split; [simpl; rewrite HB1; reflexivity |].
  rewrite (DecryptOverflow_overflowed _ _ HCS). f_equal.
  apply chain_slots; [apply Hv1 | apply Hv2].
Qed.

(** *** RotateColumns *)

Lemma sigma_bound (k : Z) (i : nat) :
  (0 < n / 2)%nat → (2 * (n / 2) = n)%nat → (i < n)%nat → (sigma n k i < n)%nat.
Proof.
  intros Hh Hn Hi. unfold sigma.
  destruct (Nat.ltb_spec i (n / 2)).
  - pose proof (Z.mod_pos_bound (Z.of_nat i + k) (Z.of_nat (n / 2))). lia.
  - pose proof (Z.mod_pos_bound (Z.of_nat i - Z.of_nat (n / 2) + k)
                  (Z.of_nat (n / 2))). lia.
Qed.

(** The label permutation of [RotateColumns] never reads out of range. *)
Lemma permute_label (k : Z) (A : list Z) :
  (0 < n / 2)%nat → (2 * (n / 2) = n)%nat → length A = n →
  ∃ A', mapM (fun i => A !! sigma n k i) (seq 0 n) = Some A' ∧ rotSlots n k A A'.
Proof.
  intros Hh Hn HA.
  exists ((fun i => default 0 (A !! sigma n k i)) <$> seq 0 n).
  assert (Hs : ∀ i, (i < n)%nat →
            A !! sigma n k i = Some (default 0 (A !! sigma n k i))).
  { intros i Hi. destruct (lookup_lt_is_Some_2 A (sigma n k i)) as [z Hz].
    - rewrite HA. apply sigma_bound; assumption.
    - rewrite Hz. reflexivity. }
  split; [| split].
  - apply mapM_Some, Forall2_fmap_r, Forall_Forall2_diag, Forall_seq.
    intros i Hi. simpl. apply Hs. lia.
  - rewrite length_fmap. apply length_seq.
  - intros i Hi. rewrite list_lookup_fmap, lookup_seq_lt by exact Hi. simpl.
    symmetry. apply Hs, Hi.
Qed.

Lemma rotSlots_inRange (k : Z) (x x' : list Z) :
  rotSlots n k x x' → Forall (fun z => 0 <= z < t) x → Forall (fun z => 0 <= z < t) x'.
Proof.
  intros [L Hx'] Rx. apply Forall_lookup. intros i z Hz.
  pose proof (lookup_lt_Some _ _ _ Hz) as Hi. rewrite L in Hi.
  rewrite (Hx' i Hi) in Hz. exact (Forall_lookup_1 _ _ _ _ Rx Hz).
Qed.

(** C9.  Rotation law: for a slot vector [v], a step [k] whose Galois
    key is in [evk], and an even slot count [n] with [h = n/2],
    [RotateColumns] of the encryption of [v] succeeds, keeps one term of
    one beta, and decrypts at slot [i] to [v[(i + k) mod h]] when
    [i < h] and to [v[h + ((i - h + k) mod h)]] otherwise. *)
Theorem RotateColumns_law w g v k :
  NewPRNG w = Ok g → slotVector p v →
  HasGaloisKey evk k = true →
  (0 < n / 2)%nat → (2 * (n / 2) = n)%nat →
  let h := (n / 2)%nat in
  ∃ C A' beta' out,
    Encrypt params pk w v = Ok C ∧
    RotateColumns params C k (Some evk) =
      Ok {| elementsA := A'; elementB := [ [beta'] ] |} ∧
    Decrypt p sk {| elementsA := A'; elementB := [ [beta'] ] |} = Ok out ∧
    length out = n ∧
    ∀ i, (i < n)%nat →
      out !! i =
      v !! (if (i <? h)%nat
            then Z.to_nat ((Z.of_nat i + k) mod Z.of_nat h)
            else (h + Z.to_nat ((Z.of_nat i - Z.of_nat h + k) mod Z.of_nat h))%nat).
Proof.
  intros Hg Hv Hk Hh Hn h.
  destruct (Encrypt_labelled w g v Hg Hv) as (C & HE & HC).
  destruct HC as (beta & b & HB & Hb & [LA RA] & Hm).
  destruct (permute_label k (elementsA C) Hh Hn LA) as (A' & HA' & HrA).
  destruct (law_RotateColumns _ _ _ _ laws _ _ k Hb Hk) as (beta' & b' & Hrot & Eb' & Hrb).
  exists C, A', beta', (addSlots t A' b').
  split; [exact HE |]. split; [| split; [| split]].
  - unfold RotateColumns, beta00. rewrite HA'. simpl. rewrite HB. simpl.
    rewrite Hrot. reflexivity.
  - apply Decrypt_labelled. exists beta', b'. simpl.
    split; [reflexivity |]. split; [exact Eb' |]. split; [| reflexivity].
    split; [apply HrA | eapply rotSlots_inRange; eassumption].
  - apply addSlots_length; [apply HrA | apply Hrb].
  - intros i Hi.
    change (addSlots t A' b' !! i = v !! sigma n k i).
    rewrite Hm. unfold addSlots. rewrite !lookup_zip_with.
    rewrite (proj2 HrA i Hi), (proj2 Hrb i Hi). reflexivity.
Qed.

(** *** Vector lengths *)

Lemma zip_with_take_l (f : Z → Z → Z) (x y : list Z) :
  zip_with f (take (length y) x) y = zip_with f x y.
Proof.
  revert y. induction x as [|a x IH]; intros [|b y]; simpl; try reflexivity.
  f_equal. apply IH.
Qed.

(** C7, as the code has it.  The labeled layer does not check vector
    lengths.  [Encrypt] of a vector with at least [MaxSlots] entries
    succeeds, uses the first [MaxSlots] entries and ignores the rest;
    [Sum] of two clear-shape ciphertexts whose second label is at least
    as long as the first succeeds with a label of the first operand's
    length.  An error returned by [Encrypt] or [Sum] is one returned by
    the PRNG or by the BGV provider. *)
Theorem length_mismatch_accepted :
  (∀ w g v,
     NewPRNG w = Ok g → (n ≤ length v)%nat → slotVector p (take n v) →
     ∃ C, Encrypt params pk w v = Ok C ∧
          Encrypt params pk w (take n v) = Ok C ∧
          Decrypt p sk C = Ok (take n v)) ∧
  (∀ (C1 C2 : PlaintextLabeledciphertext) beta1 beta2 b1 b2,
     elementB C1 = [ [beta1] ] → elementB C2 = [ [beta2] ] →
     encrypts p sk beta1 b1 → encrypts p sk beta2 b2 →
     (length (elementsA C1) ≤ length (elementsA C2))%nat →
     ∃ C, Sum p C1 C2 = Ok C ∧
          length (elementsA C) = length (elementsA C1) ∧
          elementsA C =
            zip_with (fun x y => rem64 (add64 x y) t) (elementsA C1) (elementsA C2)) ∧
  (∀ w v e,
     Encrypt params pk w v = Err e →
     NewPRNG w = Err e ∨ ∃ masks, encryptSlots p pk w masks = Err e) ∧
  (∀ (C1 C2 : PlaintextLabeledciphertext) e,
     Sum p C1 C2 = Err e → ∃ beta1 beta2, Add p None beta1 beta2 = Err e).
Proof.
  split; [| split; [| split]].
  - intros w g v Hg Hlen Hv.
    destruct (Encrypt_labelled w g (take n v) Hg Hv) as (C & HE & HC).
    exists C. split; [| split; [exact HE | apply Decrypt_labelled, HC]].
    rewrite <- HE. unfold Encrypt. rewrite Hg. simpl.
    rewrite !Encrypt_loop_draws by (rewrite ?length_take; lia). simpl.
    replace (zip_with (fun vi mask => rem64 (add64 (sub64 vi mask) t) t) (take n v)
               (draws n g (maskBound t) (maskBits t)).1)
      with (zip_with (fun vi mask => rem64 (add64 (sub64 vi mask) t) t) v
               (draws n g (maskBound t) (maskBits t)).1); [reflexivity |].
    rewrite <- (zip_with_take_l _ v). rewrite draws_length. reflexivity.
  - intros C1 C2 beta1 beta2 b1 b2 HB1 HB2 Hb1 Hb2 Hlen.
    destruct (law_Add _ _ _ _ laws None _ _ _ _ Hb1 Hb2) as (c & Hc & _).
    eexists. split; [| split].
    + unfold Sum, beta00. rewrite appendEach_zip by exact Hlen. simpl.
      rewrite HB1, HB2. simpl. rewrite Hc. reflexivity.
    + simpl. rewrite length_zip_with. lia.
    + reflexivity.
  - intros w v e HE. unfold Encrypt in HE.
    destruct (NewPRNG w) as [g|e'|]; simplify_eq/=; [| left; reflexivity].
    destruct (Encrypt_loop params v g) as [[[A masks] g']|]; simplify_eq/=.
    destruct (encryptSlots p pk w masks) as [c|e'|] eqn:Henc; simplify_eq/=.
    right. exists masks. exact Henc.
  - intros C1 C2 e HS. unfold Sum in HS.
    destruct (appendEach _ (elementsA C1) (elementsA C2)); simplify_eq/=.
    unfold beta00 in HS.
    destruct (elementB C1 !! 0%nat ≫= _) as [beta1|]; simplify_eq/=.
    destruct (elementB C2 !! 0%nat ≫= _) as [beta2|]; simplify_eq/=.
    destruct (Add p None beta1 beta2) as [c|e'|] eqn:Hadd; simplify_eq/=.
    exists beta1, beta2. exact Hadd.
Qed.

(** ** Further properties of the operations *)

Lemma labelled_length C m : labelled p sk C m → length m = n.
Proof.
  intros (beta & b & _ & Hb & [LA _] & ->).
  apply addSlots_length; [exact LA | eapply encrypts_length, Hb].
Qed.

Lemma overflowed_length C m : overflowed p sk C m → length m = n.
Proof.
  intros (alpha & x & ys & _ & Hx & HB & ->).
  apply addSlots_length; [eapply encrypts_length, Hx |].
  apply bundleValue_slotVector. eapply Forall2_decryptsTerm_length, HB.
Qed.

Lemma Sum_spec C1 C2 m1 m2 :
  labelled p sk C1 m1 → labelled p sk C2 m2 →
  ∃ beta1 beta2 betaSum,
    elementB C1 = [ [beta1] ] ∧ elementB C2 = [ [beta2] ] ∧
    Add p None beta1 beta2 = Ok betaSum ∧
    Sum p C1 C2 =
      Ok {| elementsA := addSlots t (elementsA C1) (elementsA C2);
            elementB := [ [betaSum] ] |} ∧
    labelled p sk
      {| elementsA := addSlots t (elementsA C1) (elementsA C2);
         elementB := [ [betaSum] ] |} (addSlots t m1 m2).
Proof.
  intros (beta1 & b1 & HB1 & Hb1 & [L1 R1] & ->) (beta2 & b2 & HB2 & Hb2 & [L2 R2] & ->).
  destruct (law_Add _ _ _ _ laws None _ _ _ _ Hb1 Hb2) as (betaSum & Hadd & Esum).
  exists beta1, beta2, betaSum.
  split; [exact HB1 |]. split; [exact HB2 |]. split; [exact Hadd |].
  assert (HA : zip_with (fun x y => rem64 (add64 x y) t) (elementsA C1) (elementsA C2)
               = addSlots t (elementsA C1) (elementsA C2)).
  { apply (zip_with_ext_Forall (fun z => 0 <= z < t) (fun z => 0 <= z < t));
      [exact R1 | exact R2 |].
    intros a b Ha Hb. destruct modulus. apply rem_add; lia. }
  split.
  - unfold Sum, beta00. rewrite appendEach_zip by lia. simpl.
    rewrite HB1, HB2. simpl. rewrite Hadd, HA. reflexivity.
  - exists betaSum, (addSlots t b1 b2). simpl.
    split; [reflexivity |]. split; [exact Esum |]. split.
    + split; [apply addSlots_length; assumption | apply addSlots_inRange, t_pos].
    + symmetry. apply sum_slots;
        [exact L1 | eapply encrypts_length, Hb1 | exact L2 | eapply encrypts_length, Hb2].
Qed.

(** X1.  Additive homomorphism of the clear shape: [Sum] of two
    clear-shape ciphertexts standing for [m1] and [m2] succeeds; its
    label is the slot-wise sum mod [t] of the labels, its single beta is
    the BGV sum of the betas, and it decrypts to [(m1 + m2) mod t]. *)
Theorem Sum_homomorphic C1 C2 m1 m2 :
  labelled p sk C1 m1 → labelled p sk C2 m2 →
  ∃ beta1 beta2 betaSum,
    elementB C1 = [ [beta1] ] ∧ elementB C2 = [ [beta2] ] ∧
    Add p None beta1 beta2 = Ok betaSum ∧
    Sum p C1 C2 =
      Ok {| elementsA := addSlots t (elementsA C1) (elementsA C2);
            elementB := [ [betaSum] ] |} ∧
    Decrypt p sk
      {| elementsA := addSlots t (elementsA C1) (elementsA C2);
         elementB := [ [betaSum] ] |} = Ok (addSlots t m1 m2).
Proof.
  intros H1 H2.
  destruct (Sum_spec _ _ _ _ H1 H2) as (beta1 & beta2 & betaSum & HB1 & HB2 & Hadd & HS & HL).
  exists beta1, beta2, betaSum. repeat (split; [assumption |]).
  apply Decrypt_labelled, HL.
Qed.

(** X2.  [Mult] is closed on the clear shape: for any two clear-shape
    ciphertexts standing for [m1] and [m2], fresh or themselves results
    of [Sum] and [Mult], it succeeds and returns a clear-shape ciphertext
    that stands for, and decrypts to, [(m1 * m2) mod t]. *)
Theorem Mult_closed C1 C2 m1 m2 w g :
  labelled p sk C1 m1 → labelled p sk C2 m2 → NewPRNG w = Ok g →
  ∃ C, Mult params C1 C2 pk (Some evk) w = Ok C ∧
       labelled p sk C (mulSlots t m1 m2) ∧
       Decrypt p sk C = Ok (mulSlots t m1 m2).
Proof.
  intros H1 H2 Hg.
  pose proof H1 as (beta1 & b1 & HB1 & _).
  pose proof H2 as (beta2 & b2 & HB2 & _).
  destruct (Mult_spec _ _ _ _ beta1 beta2 w g H1 H2 HB1 HB2 Hg)
    as (prod & c1 & acc1 & c2 & acc2 & cr & acc3 & _ & _ & _ & _ & _ & _ & _ & HM & HL).
  eexists. split; [exact HM |]. split; [exact HL | apply Decrypt_labelled, HL].
Qed.

(** X3.  [Decrypt] reads only [elementB[0][0]] and returns one value per
    label entry: with a label of at most [MaxSlots] reduced entries it
    returns [(a_i + b_i) mod t] for each of them; with a longer label it
    panics on the decoded mask; without a first beta it panics. *)
Theorem Decrypt_by_label_length (C : PlaintextLabeledciphertext) :
  (∀ beta b,
     elementB C !! 0%nat ≫= (fun term => term !! 0%nat) = Some beta →
     encrypts p sk beta b →
     ((length (elementsA C) ≤ n)%nat →
      Forall (fun z => 0 <= z < t) (elementsA C) →
      Decrypt p sk C = Ok (addSlots t (elementsA C) b) ∧
      length (addSlots t (elementsA C) b) = length (elementsA C)) ∧
     ((n < length (elementsA C))%nat → Decrypt p sk C = Panic)) ∧
  (elementB C !! 0%nat ≫= (fun term => term !! 0%nat) = None →
   Decrypt p sk C = Panic).
Proof.
  split.
  - intros beta b HB Hb. pose proof (encrypts_length _ _ Hb) as Lb.
    pose proof (encrypts_inRange _ _ Hb) as Rb.
    split.
    + intros HL RA. split.
      * unfold Decrypt, beta00. rewrite HB. simpl.
        rewrite (decryptSlots_encrypts _ _ Hb). simpl.
        change (forRange (length (elementsA C)) (Decrypt_body t (elementsA C) b) [])
          with (appendEach (fun x y => rem64 (add64 (add64 x y) t) t) (elementsA C) b).
        rewrite appendEach_zip by lia. simpl. f_equal.
        apply (zip_with_ext_Forall (fun z => 0 <= z < t) (fun z => 0 <= z < t));
          [exact RA | exact Rb |].
        intros x y Hx Hy. destruct modulus. apply label_add; lia.
      * unfold addSlots. rewrite length_zip_with. lia.
    + intros HL. unfold Decrypt, beta00. rewrite HB. simpl.
      rewrite (decryptSlots_encrypts _ _ Hb). simpl.
      change (forRange (length (elementsA C)) (Decrypt_body t (elementsA C) b) [])
        with (appendEach (fun x y => rem64 (add64 (add64 x y) t) t) (elementsA C) b).
      rewrite appendEach_short by lia. reflexivity.
  - intros HB. unfold Decrypt, beta00. rewrite HB. reflexivity.
Qed.

(** X4.  Edges of [DecryptOverflow]: a nil [α] makes it panic; with an
    empty bundle it returns [Dec(α)]; a term without factors counts as
    the constant 1 in every slot. *)
Theorem DecryptOverflow_edges :
  (∀ B, DecryptOverflow params sk {| elementsA := None; elementB := B |} = Panic) ∧
  (∀ alpha x, encrypts p sk alpha x →
     DecryptOverflow params sk {| elementsA := Some alpha; elementB := [] |} = Ok x ∧
     DecryptOverflow params sk {| elementsA := Some alpha; elementB := [ [] ] |} =
       Ok ((fun z => (z + 1) mod t) <$> x)).
Proof.
  split; [reflexivity |].
  intros alpha x Hx.
  pose proof (encrypts_length _ _ Hx) as Lx.
  pose proof (encrypts_inRange _ _ Hx) as Rx.
  split.
  - rewrite (DecryptOverflow_overflowed _ (addSlots t x (bundleValue p []))).
    + f_equal. unfold bundleValue. simpl.
      rewrite addSlots_comm with (n := n) by (rewrite ?length_replicate; auto).
      apply addSlots_zero_l; assumption.
    + exists alpha, x, []. simpl. repeat split; try apply Hx. constructor.
  - rewrite (DecryptOverflow_overflowed _ (addSlots t x (bundleValue p [termValue p []]))).
    + f_equal. rewrite bundleValue_one.
      * unfold termValue. simpl. apply list_eq. intros i.
        unfold addSlots. rewrite lookup_zip_with, list_lookup_fmap.
        destruct (x !! i) as [z|] eqn:E; [| reflexivity].
        pose proof (lookup_lt_Some _ _ _ E).
        rewrite (proj2 (lookup_replicate n 1 1 i)) by (split; [reflexivity | lia]).
        reflexivity.
      * unfold termValue. simpl. split; [apply length_replicate |].
        apply Forall_replicate. destruct modulus. lia.
    + exists alpha, x, [termValue p []]. simpl. repeat split; try apply Hx.
      constructor; [| constructor]. exists []. split; [constructor | reflexivity].
Qed.

(** X5.  [SumOverflowCiphertext] is commutative and associative in what
    it decrypts to, although the bundles it builds depend on the order of
    the operands: [B_a ++ B_b] against [B_b ++ B_a]. *)
Theorem SumOverflowCiphertext_comm_assoc Ca Cb Cc ma mb mc :
  overflowed p sk Ca ma → overflowed p sk Cb mb → overflowed p sk Cc mc →
  (∃ Cab Cba,
     SumOverflowCiphertext params Ca Cb = Ok Cab ∧
     SumOverflowCiphertext params Cb Ca = Ok Cba ∧
     elementB Cab = elementB Ca ++ elementB Cb ∧
     elementB Cba = elementB Cb ++ elementB Ca ∧
     DecryptOverflow params sk Cab = Ok (addSlots t ma mb) ∧
     DecryptOverflow params sk Cba = Ok (addSlots t ma mb)) ∧
  (∃ Cab Cbc L R,
     SumOverflowCiphertext params Ca Cb = Ok Cab ∧
     SumOverflowCiphertext params Cab Cc = Ok L ∧
     SumOverflowCiphertext params Cb Cc = Ok Cbc ∧
     SumOverflowCiphertext params Ca Cbc = Ok R ∧
     elementB L = elementB R ∧
     DecryptOverflow params sk L = DecryptOverflow params sk R ∧
     DecryptOverflow params sk L = Ok (addSlots t (addSlots t ma mb) mc)).
Proof.
  intros Ha Hb Hc.
  pose proof (overflowed_length _ _ Ha) as La.
  pose proof (overflowed_length _ _ Hb) as Lb.
  pose proof (overflowed_length _ _ Hc) as Lc.
  destruct (SumOverflowCiphertext_spec _ _ _ _ Ha Hb)
    as (? & ? & ? & _ & _ & _ & Hab & Oab).
  destruct (SumOverflowCiphertext_spec _ _ _ _ Hb Ha)
    as (? & ? & ? & _ & _ & _ & Hba & Oba).
  destruct (SumOverflowCiphertext_spec _ _ _ _ Hb Hc)
    as (? & ? & ? & _ & _ & _ & Hbc & Obc).
  destruct (SumOverflowCiphertext_spec _ _ _ _ Oab Hc)
    as (? & ? & ? & _ & _ & _ & HL & OL).
  destruct (SumOverflowCiphertext_spec _ _ _ _ Ha Obc)
    as (? & ? & ? & _ & _ & _ & HR & OR).
  split.
  - eexists _, _. split; [exact Hab |]. split; [exact Hba |].
    split; [reflexivity |]. split; [reflexivity |].
    split; [apply DecryptOverflow_overflowed, Oab |].
    rewrite (addSlots_comm t n ma mb) by assumption.
    apply DecryptOverflow_overflowed, Oba.
  - eexists _, _, _, _. split; [exact Hab |]. split; [exact HL |].
    split; [exact Hbc |]. split; [exact HR |].
    split; [simpl; symmetry; apply app_assoc |].
    rewrite (DecryptOverflow_overflowed _ _ OL), (DecryptOverflow_overflowed _ _ OR).
    split; [| reflexivity]. f_equal. apply addSlots_assoc with (n := n); assumption.
Qed.

(** X6.  [Mult] fails fast: an error of the PRNG is returned before the
    operands are looked at, and for two clear-shape ciphertexts an error
    of [MulRelin] (a missing relinearization key, say) is returned as it
    is. *)
Theorem Mult_propagates_errors :
  (∀ C1 C2 ek w e, NewPRNG w = Err e → Mult params C1 C2 pk ek w = Err e) ∧
  (∀ C1 C2 m1 m2 beta1 beta2 ek w g e,
     labelled p sk C1 m1 → labelled p sk C2 m2 →
     elementB C1 = [ [beta1] ] → elementB C2 = [ [beta2] ] →
     NewPRNG w = Ok g →
     MulRelin p ek beta1 beta2 = Err e →
     Mult params C1 C2 pk ek w = Err e).
Proof.
  split.
  - intros C1 C2 ek w e Hw. unfold Mult. rewrite Hw. reflexivity.
  - intros C1 C2 m1 m2 beta1 beta2 ek w g e
      (be1 & b1 & HB1 & Hb1 & HA1 & _) (be2 & b2 & HB2 & Hb2 & HA2 & _) HB1' HB2' Hg HM.
    unfold Mult, beta00. rewrite Hg. simpl.
    rewrite Mult_sample_draws. simpl.
    pose proof (draws_length n g (maskBound t) (maskBits t)) as Lr.
    pose proof (draws_inRange n g) as Rr.
    destruct (draws n g (maskBound t) (maskBits t)) as [r g'].
    simpl in *. rewrite Mult_labels_spec by assumption. simpl.
    rewrite HB1', HB2'. simpl. rewrite HM. reflexivity.
Qed.

(** X7.  [Mult] panics instead of returning an error when the first label
    is longer than the slot count or longer than the second label: the
    label loop indexes [randomVector] and the second label by the first
    label's positions. *)
Theorem Mult_panics_on_length C1 C2 ek w g :
  NewPRNG w = Ok g →
  (n < length (elementsA C1) ∨ length (elementsA C2) < length (elementsA C1))%nat →
  Mult params C1 C2 pk ek w = Panic.
Proof.
  intros Hg Hlen. unfold Mult. rewrite Hg. simpl.
  rewrite Mult_sample_draws. simpl.
  pose proof (draws_length n g (maskBound t) (maskBits t)) as Lr.
  destruct (draws n g (maskBound t) (maskBits t)) as [r g']. simpl in *.
  assert (HL : Mult_labels t (elementsA C1) (elementsA C2) r = None).
  { unfold Mult_labels.
    apply (forRange_panics (fun _ _ => True) _ _ _
             (length (elementsA C2) `min` n)); [lia | exact I | |].
    - intros k out Hk _.
      destruct (lookup_lt_is_Some_2 (elementsA C1) k) as [x Hx]; [lia |].
      destruct (lookup_lt_is_Some_2 (elementsA C2) k) as [y Hy]; [lia |].
      destruct (lookup_lt_is_Some_2 r k) as [z Hz]; [lia |].
      rewrite Hx, Hy, Hz. simpl. eauto.
    - intros out _.
      destruct (elementsA C1 !! _) as [x|]; [| reflexivity]. simpl.
      destruct (decide (length (elementsA C2) ≤ n)%nat) as [Hm|Hm].
      + rewrite Nat.min_l by exact Hm.
        rewrite (lookup_ge_None_2 (elementsA C2)) by lia. reflexivity.
      + rewrite Nat.min_r by lia.
        destruct (elementsA C2 !! n) as [y|]; [| reflexivity]. simpl.
        rewrite (lookup_ge_None_2 r) by lia. reflexivity. }
  rewrite HL. reflexivity.
Qed.

(** X8.  Mixed addition: [SumOverflow] of an encrypted-shape ciphertext
    standing for [mo] and a clear-shape one standing for [m] succeeds,
    lengthens the bundle by exactly one term, and decrypts to
    [(mo + m) mod t]; with a nil [α] it panics. *)
Theorem SumOverflow_additive :
  (∀ Co C mo m,
     overflowed p sk Co mo → labelled p sk C m →
     ∃ Cs, SumOverflow params Co C = Ok Cs ∧
           length (elementB Cs) = S (length (elementB Co)) ∧
           DecryptOverflow params sk Cs = Ok (addSlots t mo m)) ∧
  (∀ B C, SumOverflow params {| elementsA := None; elementB := B |} C = Panic).
Proof.
  split; [| reflexivity].
  intros Co C mo m Ho Hc.
  destruct (SumOverflow_spec _ _ _ _ Ho Hc) as (alpha & alpha' & _ & _ & HS & HO).
  destruct Hc as (beta & b & HB & _).
  eexists. split; [exact HS |]. split.
  - simpl. rewrite HB, length_app. simpl. lia.
  - apply DecryptOverflow_overflowed, HO.
Qed.

(** X9.  Sum of two overflow products: for clear-shape ciphertexts
    standing for [m1], [m2], [m3], the [SumOverflowCiphertext] of
    [MultOverflow(C1, C2)] and [MultOverflow(C1, C3)] has a bundle of two
    terms of two factors each and decrypts to [(m1*m2 + m1*m3) mod t]. *)
Theorem overflow_products_sum C1 C2 C3 m1 m2 m3 w w' :
  labelled p sk C1 m1 → labelled p sk C2 m2 → labelled p sk C3 m3 →
  ∃ P12 P13 S,
    MultOverflow params C1 C2 pk w = Ok P12 ∧
    MultOverflow params C1 C3 pk w' = Ok P13 ∧
    SumOverflowCiphertext params P12 P13 = Ok S ∧
    Forall2 (fun term k => length term = k) (elementB S) [2%nat; 2%nat] ∧
    DecryptOverflow params sk S =
      Ok (addSlots t (mulSlots t m1 m2) (mulSlots t m1 m3)).
Proof.
  intros H1 H2 H3.
  pose proof H1 as (beta1 & b1 & HB1 & _).
  pose proof H2 as (beta2 & b2 & HB2 & _).
  pose proof H3 as (beta3 & b3 & HB3 & _).
  destruct (MultOverflow_spec _ _ _ _ beta1 beta2 w H1 H2 HB1 HB2)
    as (a12 & ? & ? & ? & HM12 & _ & _ & _ & _ & HO12).
  destruct (MultOverflow_spec _ _ _ _ beta1 beta3 w' H1 H3 HB1 HB3)
    as (a13 & ? & ? & ? & HM13 & _ & _ & _ & _ & HO13).
  destruct (SumOverflowCiphertext_spec _ _ _ _ HO12 HO13)
    as (? & ? & ? & _ & _ & _ & HS & HO).
  eexists _, _, _. split; [exact HM12 |]. split; [exact HM13 |].
  split; [exact HS |]. split.
  - simpl. repeat constructor.
  - apply DecryptOverflow_overflowed, HO.
Qed.

(** X11.  [Encrypt] on a vector shorter than the slot count panics once
    the PRNG exists, whatever the provider does; when the PRNG cannot be
    created it returns that error instead. *)
Theorem Encrypt_short_vector w v :
  (length v < n)%nat →
  (∀ g, NewPRNG w = Ok g → Encrypt params pk w v = Panic) ∧
  (∀ e, NewPRNG w = Err e → Encrypt params pk w v = Err e).
Proof.
  intros Hlen. split.
  - intros g Hg. unfold Encrypt. rewrite Hg. simpl.
    rewrite Encrypt_loop_short by exact Hlen. reflexivity.
  - intros e He. unfold Encrypt. rewrite He. reflexivity.
Qed.

(** X12.  [Sum] and [MultOverflow] panic when the second label is
    shorter than the first: both loops run over the first label and index
    the second. *)
Theorem second_label_shorter_panics (C1 C2 : PlaintextLabeledciphertext) w :
  (length (elementsA C2) < length (elementsA C1))%nat →
  Sum p C1 C2 = Panic ∧ MultOverflow params C1 C2 pk w = Panic.
Proof.
  intros Hlen. split.
  - unfold Sum. rewrite appendEach_short by exact Hlen. reflexivity.
  - unfold MultOverflow.
    assert (HP : MultOverflow_product t (elementsA C1) (elementsA C2) = None).
    { unfold MultOverflow_product.
      apply (forRange_panics (fun _ _ => True) _ _ _ (length (elementsA C2)));
        [lia | exact I | |].
      - intros k d Hk _.
        destruct (lookup_lt_is_Some_2 (elementsA C1) k) as [x Hx]; [lia |].
        destruct (lookup_lt_is_Some_2 (elementsA C2) k) as [y Hy]; [lia |].
        rewrite Hx, Hy. simpl. eauto.
      - intros d _. rewrite (lookup_ge_None_2 (elementsA C2)) by lia.
        destruct (elementsA C1 !! _); reflexivity. }
    rewrite HP. reflexivity.
Qed.

(** X14.  The beta of [Encrypt] does not depend on the message: two
    vectors that fill the slots, encrypted with the same randomness, get
    the same bundle. *)
Theorem Encrypt_beta_independent w v v' C C' :
  (n ≤ length v)%nat → (n ≤ length v')%nat →
  Encrypt params pk w v = Ok C → Encrypt params pk w v' = Ok C' →
  elementB C = elementB C'.
Proof.
  intros Hv Hv' HE HE'. unfold Encrypt in HE, HE'.
  destruct (NewPRNG w) as [g| |]; simplify_eq/=.
  rewrite Encrypt_loop_draws in HE, HE' by assumption. simpl in HE, HE'.
  destruct (encryptSlots p pk w _) as [c| |]; simplify_eq/=. reflexivity.
Qed.

Lemma mulSlots_comm x y :
  length x = n → length y = n → mulSlots t x y = mulSlots t y x.
Proof. intros Hx Hy. slotwise i. do 2 f_equal. lia. Qed.

(** X15.  The order of the operands does not show in what is decrypted:
    [Sum], [Mult] and [MultOverflow] of two clear-shape ciphertexts, in
    either order and with whatever randomness, decrypt to the same
    vector, although labels, betas and bundles differ. *)
Theorem operands_commute C1 C2 m1 m2 w w' g g' :
  labelled p sk C1 m1 → labelled p sk C2 m2 →
  NewPRNG w = Ok g → NewPRNG w' = Ok g' →
  (∃ S S', Sum p C1 C2 = Ok S ∧ Sum p C2 C1 = Ok S' ∧
           Decrypt p sk S = Ok (addSlots t m1 m2) ∧
           Decrypt p sk S' = Ok (addSlots t m1 m2)) ∧
  (∃ M M', Mult params C1 C2 pk (Some evk) w = Ok M ∧
           Mult params C2 C1 pk (Some evk) w' = Ok M' ∧
           Decrypt p sk M = Ok (mulSlots t m1 m2) ∧
           Decrypt p sk M' = Ok (mulSlots t m1 m2)) ∧
  (∃ O O', MultOverflow params C1 C2 pk w = Ok O ∧
           MultOverflow params C2 C1 pk w' = Ok O' ∧
           DecryptOverflow params sk O = Ok (mulSlots t m1 m2) ∧
           DecryptOverflow params sk O' = Ok (mulSlots t m1 m2)).
Proof.
  intros H1 H2 Hg Hg'.
  pose proof (labelled_length _ _ H1) as L1.
  pose proof (labelled_length _ _ H2) as L2.
  pose proof H1 as (beta1 & b1 & HB1 & _).
  pose proof H2 as (beta2 & b2 & HB2 & _).
  split; [| split].
  - destruct (Sum_spec _ _ _ _ H1 H2) as (? & ? & ? & _ & _ & _ & HS & HL).
    destruct (Sum_spec _ _ _ _ H2 H1) as (? & ? & ? & _ & _ & _ & HS' & HL').
    eexists _, _. split; [exact HS |]. split; [exact HS' |].
    split; [apply Decrypt_labelled, HL |].
    rewrite (addSlots_comm t n m1 m2) by assumption. apply Decrypt_labelled, HL'.
  - destruct (Mult_spec _ _ _ _ beta1 beta2 w g H1 H2 HB1 HB2 Hg)
      as (? & ? & ? & ? & ? & ? & ? & _ & _ & _ & _ & _ & _ & _ & HM & HL).
    destruct (Mult_spec _ _ _ _ beta2 beta1 w' g' H2 H1 HB2 HB1 Hg')
      as (? & ? & ? & ? & ? & ? & ? & _ & _ & _ & _ & _ & _ & _ & HM' & HL').
    eexists _, _. split; [exact HM |]. split; [exact HM' |].
    split; [apply Decrypt_labelled, HL |].
    rewrite (mulSlots_comm m1 m2) by assumption. apply Decrypt_labelled, HL'.
  - destruct (MultOverflow_spec _ _ _ _ beta1 beta2 w H1 H2 HB1 HB2)
      as (? & ? & ? & ? & HM & _ & _ & _ & _ & HO).
    destruct (MultOverflow_spec _ _ _ _ beta2 beta1 w' H2 H1 HB2 HB1)
      as (? & ? & ? & ? & HM' & _ & _ & _ & _ & HO').
    eexists _, _. split; [exact HM |]. split; [exact HM' |].
    split; [apply DecryptOverflow_overflowed, HO |].
    rewrite (mulSlots_comm m1 m2) by assumption. apply DecryptOverflow_overflowed, HO'.
Qed.

Lemma appendEach_length (f : Z → Z → Z) (a1 a2 out : list Z) :
  appendEach f a1 a2 = Some out → length out = length a1.
Proof.
  intros HL.
  apply (forRange_preserves (fun k o => length o = k) _ _ _ _ HL); [reflexivity |].
  intros k o1 o2 _ Ho Hb.
  destruct (a1 !! k), (a2 !! k); simplify_eq/=. rewrite length_app. simpl. lia.
Qed.

Lemma Mult_labels_length t0 (a1 a2 r out : list Z) :
  Mult_labels t0 a1 a2 r = Some out → length out = length a1 ∧ (length a1 ≤ length r)%nat.
Proof.
  intros HL. split.
  - apply (forRange_preserves (fun k o => length o = k) _ _ _ _ HL); [reflexivity |].
    intros k o1 o2 _ Ho Hb.
    destruct (a1 !! k), (a2 !! k), (r !! k); simplify_eq/=.
    rewrite length_app. simpl. lia.
  - apply (forRange_preserves (fun k _ => (k ≤ length r)%nat) _ _ _ _ HL); [lia |].
    intros k o1 o2 _ Ho Hb.
    destruct (a1 !! k), (a2 !! k); simplify_eq/=.
    destruct (r !! k) eqn:E; simplify_eq/=.
    apply lookup_lt_Some in E. lia.
Qed.

Lemma Encrypt_loop_length v g A masks g' :
  Encrypt_loop params v g = Some (A, masks, g') → length A = n ∧ length masks = n.
Proof.
  intros HL.
  apply (forRange_preserves (fun k st => length st.1.1 = k ∧ length st.1.2 = k)
           _ _ _ _ HL); [split; reflexivity |].
  intros k [[A1 m1] g1] [[A2 m2] g2] _ [HA Hm] Hb. unfold Encrypt_body in Hb.
  destruct (RandUniform g1 _ _) as [mask g3].
  destruct (v !! k); simplify_eq/=. rewrite !length_app. simpl. lia.
Qed.

(** X16.  Shapes of what the operations return, whatever they were
    given: a result of [Encrypt] has exactly [MaxSlots] labels; a result
    of [Sum] or [Mult] has as many labels as the first operand, for [Mult]
    at most [MaxSlots]; each of the three carries one term of one beta.  A
    result of [MultOverflow] has a non-nil [α] and the single term
    [[β1, β2]] made of the first betas of the operands, and a result of
    [SumOverflow] or [SumOverflowCiphertext] has a non-nil [α] and the
    two bundles one after the other. *)
Theorem result_shapes :
  (∀ w v C, Encrypt params pk w v = Ok C →
     length (elementsA C) = n ∧ ∃ beta, elementB C = [ [beta] ]) ∧
  (∀ C1 C2 C, Sum p C1 C2 = Ok C →
     length (elementsA C) = length (elementsA C1) ∧ ∃ beta, elementB C = [ [beta] ]) ∧
  (∀ C1 C2 ek w C, Mult params C1 C2 pk ek w = Ok C →
     length (elementsA C) = length (elementsA C1) ∧
     (length (elementsA C1) ≤ n)%nat ∧ ∃ beta, elementB C = [ [beta] ]) ∧
  (∀ C1 C2 w C, MultOverflow params C1 C2 pk w = Ok C →
     ∃ alpha beta1 beta2,
       elementsA C = Some alpha ∧ elementB C = [ [beta1; beta2] ] ∧
       beta00 C1 = Ok beta1 ∧ beta00 C2 = Ok beta2) ∧
  (∀ C1 C2 C, SumOverflow params C1 C2 = Ok C →
     (∃ alpha, elementsA C = Some alpha) ∧ elementB C = elementB C1 ++ elementB C2) ∧
  (∀ C1 C2 C, SumOverflowCiphertext params C1 C2 = Ok C →
     (∃ alpha, elementsA C = Some alpha) ∧ elementB C = elementB C1 ++ elementB C2).
Proof.
  split; [| split; [| split; [| split; [| split]]]].
  - intros w v C HE. unfold Encrypt in HE.
    destruct (NewPRNG w) as [g| |]; simplify_eq/=.
    destruct (Encrypt_loop params v g) as [[[A masks] g']|] eqn:HL; simplify_eq/=.
    destruct (encryptSlots p pk w masks); simplify_eq/=.
    split; [exact (proj1 (Encrypt_loop_length _ _ _ _ _ HL)) | eauto].
  - intros C1 C2 C HS. unfold Sum in HS.
    destruct (appendEach _ (elementsA C1) (elementsA C2)) as [A|] eqn:HL; simplify_eq/=.
    repeat match type of HS with
           | Go.bind ?c _ = _ => destruct c; simplify_eq/=
           end.
    split; [eapply appendEach_length, HL | eauto].
  - intros C1 C2 ek w C HM. unfold Mult in HM.
    destruct (NewPRNG w) as [g| |]; simplify_eq/=.
    rewrite Mult_sample_draws in HM. simpl in HM.
    pose proof (draws_length n g (maskBound t) (maskBits t)) as Lr.
    destruct (draws n g (maskBound t) (maskBits t)) as [r g']. simpl in *.
    destruct (Mult_labels t (elementsA C1) (elementsA C2) r) as [A|] eqn:HL;
      simplify_eq/=.
    repeat match type of HM with
           | Go.bind ?c _ = _ => destruct c; simplify_eq/=
           end.
    destruct (Mult_labels_length _ _ _ _ _ HL) as [H1 H2].
    split; [exact H1 |]. split; [lia | eauto].
  - intros C1 C2 w C HM. unfold MultOverflow in HM.
    destruct (MultOverflow_product _ _ _); simplify_eq/=.
    destruct (encryptSlots _ _ _ _); simplify_eq/=.
    destruct (beta00 C2) as [beta2| |] eqn:E2; simplify_eq/=.
    destruct (MulVector _ _ beta2 _); simplify_eq/=.
    destruct (beta00 C1) as [beta1| |] eqn:E1; simplify_eq/=.
    repeat match type of HM with
           | Go.bind ?c _ = _ => destruct c; simplify_eq/=
           end.
    eauto 10.
  - intros C1 C2 C HS. unfold SumOverflow in HS.
    destruct (elementsA C1); simplify_eq/=.
    destruct (AddVector _ _ _ _); simplify_eq/=. eauto.
  - intros C1 C2 C HS. unfold SumOverflowCiphertext in HS.
    destruct (elementsA C1); simplify_eq/=.
    destruct (elementsA C2); simplify_eq/=.
    destruct (Add _ _ _ _); simplify_eq/=. eauto.
Qed.

End Correctness.

(** ** The ideal provider meets the contract *)

Module IdealLaws.
Import Ideal.

Lemma reject_bound fuel g v mask : 0 < v → 0 <= (reject fuel g v mask).1 < v.
Proof.
  intros Hv. revert g. induction fuel as [|fuel IH]; intros g; cbn [reject].
  - simpl. lia.
  - set (r := Z.land (Z.shiftr (lcg g) 32) mask).
    destruct (Z.leb_spec 0 r); [| apply IH].
    destruct (Z.ltb_spec r v); [| apply IH].
    simpl. lia.
Qed.

Lemma slots_even (p : ParametersLiteral) :
  1 <= LogN p → (0 < slots p / 2 ∧ 2 * (slots p / 2) = slots p)%nat.
Proof.
  intros HL. unfold slots.
  replace (LogN p) with (1 + (LogN p - 1)) by lia.
  rewrite Z.pow_add_r by lia. change (2 ^ 1) with 2.
  assert (0 < 2 ^ (LogN p - 1)) by (apply Z.pow_pos_nonneg; lia).
  rewrite Z2Nat.inj_mul by lia. change (Z.to_nat 2) with 2%nat.
  rewrite Nat.mul_comm, Nat.div_mul by lia. lia.
Qed.

Lemma sigma_lt (m : nat) (k : Z) (i : nat) :
  (0 < m / 2)%nat → (2 * (m / 2) = m)%nat → (i < m)%nat → (sigma m k i < m)%nat.
Proof.
  intros Hh Hm Hi. unfold sigma.
  set (h := (m / 2)%nat) in *.
  destruct (Nat.ltb_spec i h).
  - pose proof (Z.mod_pos_bound (Z.of_nat i + k) (Z.of_nat h)). lia.
  - pose proof (Z.mod_pos_bound (Z.of_nat i - Z.of_nat h + k) (Z.of_nat h)). lia.
Qed.

Lemma rotate_rotSlots (m : nat) (k : Z) (x : list Z) :
  (0 < m / 2)%nat → (2 * (m / 2) = m)%nat → length x = m →
  rotSlots m k x (rotate m k x).
Proof.
  intros Hh Hm Hx. unfold rotate. split.
  - rewrite length_fmap. apply length_seq.
  - intros i Hi. rewrite list_lookup_fmap, lookup_seq_lt by exact Hi. simpl.
    destruct (lookup_lt_is_Some_2 x (sigma m k i)) as [z Hz].
    { rewrite Hx. apply sigma_lt; assumption. }
    rewrite Hz. reflexivity.
Qed.

Lemma rotate_inRange (t : Z) (m : nat) (k : Z) (x : list Z) :
  0 < t → Forall (fun z => 0 <= z < t) x → Forall (fun z => 0 <= z < t) (rotate m k x).
Proof.
  intros Ht Hx. unfold rotate. apply Forall_fmap, Forall_forall. intros i _. simpl.
  destruct (x !! sigma m k i) as [z|] eqn:E; simpl; [| lia].
  exact (Forall_lookup_1 _ _ _ _ Hx E).
Qed.

(** Every parameter set of even slot count and positive modulus, with
    any set of Galois keys, satisfies the contract. *)
Lemma laws (p : ParametersLiteral) (keys : list Z) :
  1 <= LogN p → 0 < PlaintextModulusLit p → Laws p tt tt keys.
Proof.
  intros HL Ht. split.
  - intros g v mask Hv. apply reject_bound, Hv.
  - intros w v Hlen. simpl in *.
    set (x := (fun z => z mod PlaintextModulusLit p) <$> v).
    assert (Hx : length x = slots p) by (unfold x; rewrite length_fmap; exact Hlen).
    exists x, x. split; [| split; [reflexivity |]].
    + rewrite decide_True by lia. rewrite <- Hx, resize_all. reflexivity.
    + split; [reflexivity | split; [exact Hx |]].
      apply Forall_fmap, Forall_forall. intros z _. simpl.
      apply Z.mod_pos_bound, Ht.
  - intros ek c1 c2 x1 x2 (E1 & L1 & R1) (E2 & L2 & R2). simpl in *. simplify_eq.
    eexists. split; [reflexivity |]. split; [reflexivity | split].
    + apply addSlots_length; assumption.
    + apply addSlots_inRange, Ht.
  - intros ek c x v (E1 & L1 & R1) L2. simpl in *. simplify_eq.
    eexists. split; [reflexivity |]. split; [reflexivity | split].
    + apply addSlots_length; assumption.
    + apply addSlots_inRange, Ht.
  - intros ek c x v (E1 & L1 & R1) L2. simpl in *. simplify_eq.
    eexists. split; [reflexivity |]. split; [reflexivity | split].
    + apply mulSlots_length; assumption.
    + apply mulSlots_inRange, Ht.
  - intros c1 c2 x1 x2 (E1 & L1 & R1) (E2 & L2 & R2). simpl in *. simplify_eq.
    eexists. split; [reflexivity |]. split; [reflexivity | split].
    + apply mulSlots_length; assumption.
    + apply mulSlots_inRange, Ht.
  - intros c x k (E1 & L1 & R1) Hk. simpl in *. simplify_eq.
    destruct (slots_even p HL) as [Hh Hm].
    exists (rotate (slots p) k x), (rotate (slots p) k x).
    rewrite Hk. split; [reflexivity |]. split; [split; [reflexivity | split] |].
    + apply (rotate_rotSlots _ _ _ Hh Hm L1).
    + apply rotate_inRange; assumption.
    + apply rotate_rotSlots; assumption.
Qed.

Lemma laws4 (keys : list Z) : Laws p4 tt tt keys.
Proof. apply laws; simpl; lia. Qed.

Lemma modulus4 : smallModulus (PlaintextModulusLit p4).
Proof. unfold smallModulus. simpl. lia. Qed.

Lemma sqrt4 : sqrtExact (PlaintextModulusLit p4).
Proof. vm_compute. reflexivity. Qed.

Lemma slotVector4 (v : list Z) :
  length v = 4%nat → forallb (fun z => (0 <=? z) && (z <? 0x3ee0001)) v = true →
  slotVector p4 v.
Proof.
  intros Hlen Hv. split; [exact Hlen |].
  apply Forall_forall. intros z Hz.
  rewrite forallb_forall in Hv. apply list_elem_of_In, Hv in Hz.
  apply andb_prop in Hz as [H1 H2].
  apply Z.leb_le in H1. apply Z.ltb_lt in H2. simpl. lia.
Qed.
End IdealLaws.

(** ** The deployed parameters *)

Example sqrt_of_deployed_modulus :
  uint64_of_float64 (math_Sqrt (float64_of_uint64 0x3ee0001)) = 8119.
Proof. vm_compute. reflexivity. Qed.

Example sqrtExact_deployed : sqrtExact 0x3ee0001.
Proof. vm_compute. reflexivity. Qed.

Example maskBits_deployed : maskBits 0x3ee0001 = 8191.
Proof. vm_compute. reflexivity. Qed.

(** C6.  [NewParametersFromLiteral] does not build the parameters from its
    arguments: whatever they are, the result is the one for
    [logN = 14], [logQ = [56,55,55,54,54,54]], [logP = [55,55]],
    [t = 0x3ee0001].  With the ideal provider, the call for
    [(12, [50,50], [50], 65537)] returns parameters of degree [2^14] and
    modulus [0x3ee0001]. *)
Theorem NewParametersFromLiteral_ignores_arguments :
  (∀ (P : Provider) (logN : Z) (logQ logP : list Z) (modulus : Z),
     NewParametersFromLiteral logN logQ logP modulus =
     NewParametersFromLiteral 14 [56; 55; 55; 54; 54; 54] [55; 55] 0x3ee0001) ∧
  ∃ params : @Parameters Ideal.provider,
    @NewParametersFromLiteral Ideal.provider 12 [50; 50] [50] 65537 = Ok params ∧
    LogN (embedded params) = 14 ∧
    LogQ (embedded params) = [56; 55; 55; 54; 54; 54] ∧
    LogP (embedded params) = [55; 55] ∧
    @PlaintextModulus Ideal.provider (embedded params) = 0x3ee0001 ∧
    @MaxSlots Ideal.provider (embedded params) = Z.to_nat (2 ^ 14).
Proof.
  split.
  - intros. reflexivity.
  - eexists. split; [reflexivity |]. repeat split; reflexivity.
Qed.

(** ** The example driver *)

(** [(((a*b)*a)+a) % t] in uint64, for values the sampler can return. *)
Lemma expectedValue_exact (t a b : Z) :
  0 <= a < 2 ^ 16 → 0 <= b < 2 ^ 16 →
  expectedValue t a b = ((a * b) * a + a) mod t.
Proof.
  intros Ha Hb. unfold expectedValue, rem64, add64, mul64. rewrite wB_eq.
  assert (0 <= a * b < 2 ^ 32) by nia.
  rewrite (Z.mod_small (a * b)) by lia.
  assert (0 <= a * b * a < 2 ^ 48) by nia.
  rewrite (Z.mod_small (a * b * a)) by lia.
  rewrite (Z.mod_small (a * b * a + a)) by lia. reflexivity.
Qed.

Section DriverCorrect.
Context `{KeyGenerator}.

Lemma main_sample_draws (params : Parameters) (g : PRNG) :
  let t := PlaintextModulus (embedded params) in
  main_sample params g =
  Some (draws (MaxSlots (embedded params)) g (maskBound t) (maskBits t)).
Proof. exact (Mult_sample_draws params g). Qed.

(** The comparison loop finds no mismatch when [value] is what the
    expression says. *)
Lemma main_check_passes (params : Parameters) (v1 v2 : list Z) :
  let t := PlaintextModulus (embedded params) in
  length v1 = MaxSlots (embedded params) → length v2 = MaxSlots (embedded params) →
  Forall (fun z => 0 <= z < 2 ^ 16) v1 → Forall (fun z => 0 <= z < 2 ^ 16) v2 →
  main_check params v1 v2 (zip_with (fun a b => ((a * b) * a + a) mod t) v1 v2) =
  Some true.
Proof.
  intros t L1 L2 R1 R2. unfold main_check.
  destruct (forRange_invariant (fun _ running => running = true)
    (MaxSlots (embedded params))
    (fun (running : bool) i =>
       if running then
         a ← v1 !! i; b ← v2 !! i;
         x ← zip_with (fun a b => ((a * b) * a + a) mod t) v1 v2 !! i;
         Some (x =? expectedValue (PlaintextModulus (embedded params)) a b)
       else Some false)
    true) as (running & Hr & ->); [reflexivity | | exact Hr].
  intros k running Hk ->.
  destruct (lookup_lt_is_Some_2 v1 k) as [a Ha]; [lia |].
  destruct (lookup_lt_is_Some_2 v2 k) as [b Hb]; [lia |].
  exists true. split; [| reflexivity].
  rewrite lookup_zip_with, Ha, Hb. simpl. f_equal.
  pose proof (Forall_lookup_1 _ _ _ _ R1 Ha) as Ra.
  pose proof (Forall_lookup_1 _ _ _ _ R2 Hb) as Rb. simpl in Ra, Rb.
  rewrite expectedValue_exact by assumption. apply Z.eqb_refl.
Qed.

(** X13.  The example driver runs to its last line: when lattigo accepts
    the parameter literal of the package and reports its modulus, the
    generated keys are correct, and the four PRNGs can be created, every
    operation of [((v1*v2)*v1)+v1] succeeds on the sampled vectors and the
    comparison loop finds every decrypted slot equal to the expected
    value. *)
Theorem main_completes (r : Randomness) p0 g g1 g2 g3 :
  bgv_NewParametersFromLiteral
    {| LogN := 14; LogQ := [56; 55; 55; 54; 54; 54]; LogP := [55; 55];
       PlaintextModulusLit := 0x3ee0001 |} = Ok p0 →
  PlaintextModulus p0 = 0x3ee0001 →
  keysCorrect p0 →
  NewPRNG (forValues r) = Ok g →
  NewPRNG (forEncrypt1 r) = Ok g1 →
  NewPRNG (forEncrypt2 r) = Ok g2 →
  NewPRNG (forMult r) = Ok g3 →
  main r = Completed.
Proof.
  intros Hp Ht Hkeys Hg Hg1 Hg2 Hg3.
  unfold main, NewParametersFromLiteral. rewrite Hp. simpl.
  unfold GenerateKeyPair, GenerateRelinearizationKey, GenerateMemEvaluationKeySet.
  pose proof (Hkeys (forKeys r) (forRelin r)) as HL. simpl.
  destruct (GenKeyPairNew p0 (forKeys r)) as [Sk Pk]. simpl in HL.
  set (evk := NewMemEvaluationKeySet (GenRelinearizationKeyNew p0 Sk (forRelin r))) in *.
  pose (params := {| embedded := p0 |}).
  change {| embedded := p0 |} with params.
  set (t := PlaintextModulus p0) in *.
  set (n := MaxSlots p0) in *.
  assert (Hmod : smallModulus t) by (rewrite Ht; unfold smallModulus; lia).
  assert (Hsqrt : sqrtExact t) by (rewrite Ht; exact sqrtExact_deployed).
  assert (Hb : 0 < maskBound t <= t).
  { apply maskBound_bounds; [exact Hsqrt |]. destruct Hmod. lia. }
  assert (Hb16 : maskBound t <= 2 ^ 16).
  { rewrite Ht. vm_compute. discriminate. }
  assert (Hdraws : ∀ g0,
    length (draws n g0 (maskBound t) (maskBits t)).1 = n ∧
    Forall (fun z => 0 <= z < maskBound t) (draws n g0 (maskBound t) (maskBits t)).1).
  { intros g0. split; [apply draws_length |].
    exact (draws_inRange params Sk Pk evk HL Hmod Hsqrt n g0). }
  rewrite Hg, !main_sample_draws.
  change (PlaintextModulus (embedded params)) with t.
  change (MaxSlots (embedded params)) with n.
  destruct (Hdraws g) as [L1 R1].
  destruct (draws n g (maskBound t) (maskBits t)) as [v1 prng1]. simpl in L1, R1.
  rewrite main_sample_draws.
  change (PlaintextModulus (embedded params)) with t.
  change (MaxSlots (embedded params)) with n.
  destruct (Hdraws prng1) as [L2 R2].
  destruct (draws n prng1 (maskBound t) (maskBits t)) as [v2 prng2]. simpl in L2, R2.
  assert (S1 : slotVector p0 v1).
  { split; [exact L1 |]. eapply Forall_impl; [exact R1 |]. simpl. intros z Hz.
    fold t. lia. }
  assert (S2 : slotVector p0 v2).
  { split; [exact L2 |]. eapply Forall_impl; [exact R2 |]. simpl. intros z Hz.
    fold t. lia. }
  destruct (Encrypt_labelled params Sk Pk evk HL Hmod Hsqrt _ g1 v1 Hg1 S1)
    as (C1 & HE1 & HC1).
  destruct (Encrypt_labelled params Sk Pk evk HL Hmod Hsqrt _ g2 v2 Hg2 S2)
    as (C2 & HE2 & HC2).
  pose proof HC1 as (beta1 & b1 & HB1 & _).
  pose proof HC2 as (beta2 & b2 & HB2 & _).
  destruct (Mult_spec params Sk Pk evk HL Hmod Hsqrt _ _ _ _ beta1 beta2 _ g3
              HC1 HC2 HB1 HB2 Hg3)
    as (? & ? & ? & ? & ? & ? & acc3 & _ & _ & _ & _ & _ & _ & _ & HM & HCM).
  destruct (MultOverflow_spec params Sk Pk evk HL Hmod _ _ _ _ beta1 acc3
              (forMultOverflow r) HC1 HCM HB1 eq_refl)
    as (? & ? & ? & ? & HMO & _ & _ & _ & _ & HCO).
  destruct (SumOverflow_spec params Sk Pk evk HL Hmod _ _ _ _ HCO HC1)
    as (? & ? & _ & _ & HS & HCS).
  pose proof (DecryptOverflow_overflowed params Sk Hmod _ _ HCS) as HD.
  pose proof (chain_slots params v1 v2 L1 L2) as Hchain.
  pose proof (main_check_passes params v1 v2 L1 L2) as Hcheck.
  rewrite HE1. cbn [orFatal]. rewrite HE2. cbn [orFatal]. rewrite HM. cbn [orFatal].
  rewrite HMO. cbn [orFatal]. rewrite HS. cbn [orFatal]. rewrite HD. cbn [orFatal].
  rewrite Hchain, Hcheck; [reflexivity | |].
  - eapply Forall_impl; [exact R1 |]. simpl. intros z Hz. lia.
  - eapply Forall_impl; [exact R2 |]. simpl. intros z Hz. lia.
Qed.

End DriverCorrect.

(** ** Scenarios on the ideal provider *)

Module Scenarios.
Import Ideal IdealLaws.

Lemma slot_v1 : slotVector p4 v1.
Proof. apply slotVector4; reflexivity. Qed.

Lemma slot_v2 : slotVector p4 v2.
Proof. apply slotVector4; reflexivity. Qed.

Lemma ideal_encrypts (x : list Z) : slotVector p4 x → encrypts p4 tt x x.
Proof. intros Hx. split; [reflexivity | exact Hx]. Qed.

(** Any alpha and bundle made of slot vectors form an encrypted-shape
    ciphertext, worth what the sum of products says. *)
Lemma ideal_overflowed (alpha : list Z) (B : list (list (list Z))) :
  slotVector p4 alpha → Forall (Forall (slotVector p4)) B →
  overflowed p4 tt {| elementsA := Some alpha; elementB := B |}
    (addSlots 0x3ee0001 alpha (bundleValue p4 (termValue p4 <$> B))).
Proof.
  intros Ha HB. exists alpha, alpha, (@termValue provider p4 <$> B). simpl.
  split; [reflexivity |]. split; [apply ideal_encrypts, Ha |]. split; [| reflexivity].
  apply Forall2_fmap_r, Forall_Forall2_diag.
  eapply Forall_impl; [exact HB |]. intros term Hterm. simpl.
  exists term. split; [| reflexivity].
  apply Forall_Forall2_diag. eapply Forall_impl; [exact Hterm |].
  intros x Hx. apply ideal_encrypts, Hx.
Qed.

Ltac setting :=
  repeat match goal with |- _ ∧ _ => split end;
  first [ exact (laws4 _) | exact modulus4 | exact sqrt4
        | exact slot_v1 | exact slot_v2 | reflexivity | assumption ].

(** S1: fresh round trip. *)
Lemma Decrypt_Encrypt_roundtrip_witness :
  (Laws p4 tt tt [] ∧ smallModulus 0x3ee0001 ∧ sqrtExact 0x3ee0001 ∧
   NewPRNG 7 = Ok 7 ∧ slotVector p4 v1) ∧
  ∃ C, Encrypt params4 tt 7 v1 = Ok C ∧ Decrypt p4 tt C = Ok v1.
Proof.
  split.
  - setting.
  - apply (Decrypt_Encrypt_roundtrip params4 tt tt [] (laws4 []) modulus4 sqrt4
             7 7 v1 eq_refl slot_v1).
Defined.

Lemma Mult_homomorphic_witness :
  (Laws p4 tt tt [] ∧ smallModulus 0x3ee0001 ∧ sqrtExact 0x3ee0001 ∧
   slotVector p4 v1 ∧ slotVector p4 v2) ∧
  ∃ C1 C2 C,
    Encrypt params4 tt 7 v1 = Ok C1 ∧ Encrypt params4 tt 99 v2 = Ok C2 ∧
    Mult params4 C1 C2 tt (Some []) 5 = Ok C ∧
    Decrypt p4 tt C = Ok [50; 200; 450; 65929177].
Proof.
  split; [setting |].
  destruct (Mult_homomorphic params4 tt tt [] (laws4 []) modulus4 sqrt4
              7 99 5 7 99 5 v1 v2 eq_refl eq_refl eq_refl slot_v1 slot_v2)
    as (a1 & a2 & beta1 & beta2 & betaOut & HE1 & HE2 & HM & _ & HD).
  eexists _, _, _. split; [exact HE1 |]. split; [exact HE2 |].
  split; [exact HM |]. exact HD.
Defined.

(** S2, first half: overflow multiplication. *)
Lemma MultOverflow_correct_witness :
  (Laws p4 tt tt [] ∧ smallModulus 0x3ee0001 ∧ sqrtExact 0x3ee0001 ∧
   slotVector p4 v1 ∧ slotVector p4 v2) ∧
  ∃ C1 C2 C,
    Encrypt params4 tt 7 v1 = Ok C1 ∧ Encrypt params4 tt 99 v2 = Ok C2 ∧
    MultOverflow params4 C1 C2 tt 5 = Ok C ∧
    elementB C = [ elementB C1 !!! 0%nat ++ elementB C2 !!! 0%nat ] ∧
    DecryptOverflow params4 tt C = Ok [50; 200; 450; 65929177].
Proof.
  split; [setting |].
  destruct (MultOverflow_correct params4 tt tt [] (laws4 []) modulus4 sqrt4
              7 99 5 7 99 v1 v2 eq_refl eq_refl slot_v1 slot_v2)
    as (a1 & a2 & beta1 & beta2 & alpha & x & b1 & b2 &
        HE1 & HE2 & HM & _ & _ & _ & _ & HD).
  eexists _, _, _. split; [exact HE1 |]. split; [exact HE2 |].
  split; [exact HM |]. split; [reflexivity | exact HD].
Defined.

(** S2: the depth-2 chain [((v1*v2)*v1) + v1]. *)
Lemma overflow_chain_witness :
  (Laws p4 tt tt [] ∧ smallModulus 0x3ee0001 ∧ sqrtExact 0x3ee0001 ∧
   slotVector p4 v1 ∧ slotVector p4 v2) ∧
  ∃ C1 C2 CM CO CS,
    Encrypt params4 tt 7 v1 = Ok C1 ∧ Encrypt params4 tt 99 v2 = Ok C2 ∧
    Mult params4 C1 C2 tt (Some []) 5 = Ok CM ∧
    MultOverflow params4 C1 CM tt 6 = Ok CO ∧
    SumOverflow params4 CO C1 = Ok CS ∧
    DecryptOverflow params4 tt CS = Ok [510; 4020; 13530; 65927657].
Proof.
  split; [setting |].
  destruct (overflow_chain params4 tt tt [] (laws4 []) modulus4 sqrt4
              7 99 5 6 7 99 5 v1 v2 eq_refl eq_refl eq_refl slot_v1 slot_v2)
    as (C1 & C2 & CM & CO & CS & alpha & alpha' & beta1 &
        HE1 & HE2 & HM & HMO & HS & _ & _ & _ & _ & _ & HD).
  exists C1, C2, CM, CO, CS. auto 10.
Defined.

Lemma overflowed_Ca : overflowed p4 tt Ca [6; 8; 17; 20].
Proof.
  apply (ideal_overflowed [1; 2; 3; 4] [ [ [5; 6; 7; 8]; [1; 1; 2; 2] ] ]).
  - apply slotVector4; reflexivity.
  - repeat first [apply Forall_nil_2 | apply Forall_cons_2
                 | apply slotVector4; reflexivity].
Qed.

Lemma overflowed_Cb : overflowed p4 tt Cb [11; 9; 14; 8].
Proof.
  apply (ideal_overflowed [0; 0; 1; 65929216]
           [ [ [9; 9; 9; 9] ]; [ [2; 3; 4; 5]; [1; 0; 1; 0] ] ]).
  - apply slotVector4; reflexivity.
  - repeat first [apply Forall_nil_2 | apply Forall_cons_2
                 | apply slotVector4; reflexivity].
Qed.

(** S6: concatenation, then decryption. *)
Lemma SumOverflowCiphertext_concat_witness :
  (Laws p4 tt tt [] ∧ smallModulus 0x3ee0001 ∧
   overflowed p4 tt Ca [6; 8; 17; 20] ∧ overflowed p4 tt Cb [11; 9; 14; 8]) ∧
  ∃ C,
    SumOverflowCiphertext params4 Ca Cb = Ok C ∧
    elementB C = elementB Ca ++ elementB Cb ∧
    length (elementB C) = 3%nat ∧
    DecryptOverflow params4 tt C = Ok [17; 17; 31; 28].
Proof.
  pose proof overflowed_Ca. pose proof overflowed_Cb.
  split; [setting |].
  destruct (SumOverflowCiphertext_concat params4 tt tt [] (laws4 []) modulus4
              Ca Cb _ _ overflowed_Ca overflowed_Cb)
    as (alphaA & alphaB & alpha & C & _ & _ & _ & HS & _ & HB & _ & _ & HD).
  exists C. split; [exact HS |]. split; [exact HB |].
  split; [rewrite HB; reflexivity | exact HD].
Defined.

(** The labels and masks of S1 stay in range. *)
Lemma label_and_mask_bounds_witness :
  (Laws p4 tt tt [] ∧ smallModulus 0x3ee0001 ∧ sqrtExact 0x3ee0001) ∧
  Forall (fun z => 0 <= z < 0x3ee0001) [65926991; 65922454; 65922493; 65923335] ∧
  Forall (fun z => 0 <= z < 8119) [2236; 6783; 6754; 5922].
Proof.
  split; [setting |].
  destruct (label_and_mask_bounds params4 tt tt [] (laws4 []) modulus4 sqrt4)
    as (HE & _ & HL & _).
  split.
  - apply (HE 7 v1 E1). reflexivity.
  - destruct (HL v1 7 [65926991; 65922454; 65922493; 65923335]
                 [2236; 6783; 6754; 5922] (snd (@draws provider 4 7 8119 8191)))
      as [_ HF]; [reflexivity | exact HF].
Defined.

(** S3 on four slots: rotation by one inside each half. *)
Lemma RotateColumns_law_witness :
  (Laws p4 tt tt [1] ∧ smallModulus 0x3ee0001 ∧ sqrtExact 0x3ee0001 ∧
   slotVector p4 v1 ∧ HasGaloisKey [1] 1 = true) ∧
  ∃ C C' out,
    Encrypt params4 tt 7 v1 = Ok C ∧
    RotateColumns params4 C 1 (Some [1]) = Ok C' ∧
    Decrypt p4 tt C' = Ok out ∧
    out !! 0%nat = Some 20 ∧ out !! 1%nat = Some 10 ∧
    out !! 2%nat = Some 40 ∧ out !! 3%nat = Some 30.
Proof.
  split; [setting |].
  destruct (RotateColumns_law params4 tt tt [1] (laws4 [1]) modulus4 sqrt4
              7 7 v1 1 eq_refl slot_v1 eq_refl)
    as (C & A' & beta' & out & HE & HR & HD & _ & Hout).
  - vm_compute. lia.
  - reflexivity.
  - exists C, {| elementsA := A'; elementB := [ [beta'] ] |}, out.
    split; [exact HE |]. split; [exact HR |]. split; [exact HD |].
    split; [apply (Hout 0%nat); vm_compute; lia |].
    split; [apply (Hout 1%nat); vm_compute; lia |].
    split; [apply (Hout 2%nat); vm_compute; lia |].
    apply (Hout 3%nat); vm_compute; lia.
Defined.

(** The first slot of S1: mask [2236] exceeds the value [10]. *)
Lemma Encrypt_label_exact_witness :
  (0 < 0x3ee0001 <= 2 ^ 63 ∧ 0 <= 10 < 0x3ee0001 ∧ 0 <= 2236 < 0x3ee0001 ∧
   RandUniform 7 8119 8191 = (2236, lcg 7)) ∧
  Encrypt_body params4 v1 ([], [], 7) 0 =
    Some ([] ++ [(10 - 2236) mod 0x3ee0001], [] ++ [2236], lcg 7) ∧
  (10 < 2236 → sub64 10 2236 = 10 - 2236 + 2 ^ 64 ∧
               add64 (sub64 10 2236) 0x3ee0001 = 10 - 2236 + 0x3ee0001).
Proof.
  split.
  - repeat match goal with |- _ ∧ _ => split end;
      first [lia | vm_compute; reflexivity].
  - apply (Encrypt_label_exact params4 v1 [] [] 7 (lcg 7) 0 10 2236).
    + simpl. lia.
    + vm_compute. reflexivity.
    + reflexivity.
    + simpl. lia.
    + simpl. lia.
Defined.

(** Five values for four slots, and a second label longer than the first. *)
Lemma length_mismatch_accepted_witness :
  (Laws p4 tt tt [] ∧ smallModulus 0x3ee0001 ∧ sqrtExact 0x3ee0001) ∧
  (∃ C, Encrypt params4 tt 7 (v1 ++ [50]) = Ok C ∧
        Encrypt params4 tt 7 v1 = Ok C ∧ Decrypt p4 tt C = Ok v1) ∧
  (∃ C, Sum p4 short long = Ok C ∧ length (elementsA C) = 2%nat).
Proof.
  split; [setting |].
  destruct (length_mismatch_accepted params4 tt tt [] (laws4 []) modulus4 sqrt4)
    as (HE & HS & _ & _).
  split.
  - apply (HE 7 7 (v1 ++ [50]) eq_refl).
    + vm_compute. lia.
    + exact slot_v1.
  - destruct (HS short long [1; 1; 1; 1] [2; 2; 2; 2] [1; 1; 1; 1] [2; 2; 2; 2]
                 eq_refl eq_refl) as (C & HC & HL & _).
    + apply ideal_encrypts, slotVector4; reflexivity.
    + apply ideal_encrypts, slotVector4; reflexivity.
    + vm_compute. lia.
    + exists C. split; [exact HC | exact HL].
Defined.

(** C7 as stated fails: a vector whose length disagrees with the slot
    count is not answered with an error.  Five values for four slots are
    encrypted without complaint. *)
Lemma length_mismatch_not_reported :
  ¬ (∀ (w : Z) (v : list Z),
       length v ≠ MaxSlots p4 → ∃ e, Encrypt params4 tt w v = Err e).
Proof.
  intros Hall.
  destruct (Hall 7 [10; 20; 30; 40; 50]) as [e He].
  - vm_compute. lia.
  - assert (E : Encrypt params4 tt 7 [10; 20; 30; 40; 50] = Ok E1) by reflexivity.
    rewrite E in He. discriminate He.
Qed.

(** Three values for four slots, or a second label shorter than the
    first, end in a run-time panic instead of an error. *)
Example short_vector_panics :
  Encrypt params4 tt 7 [10; 20; 30] = Panic ∧
  Sum p4 long short = Panic.
Proof. split; reflexivity. Qed.

End Scenarios.

(** ** Further scenarios on the ideal provider *)

Module MoreScenarios.
Import Ideal IdealLaws Scenarios.

Lemma ideal_labelled (A b : list Z) :
  slotVector p4 A → slotVector p4 b →
  labelled p4 tt {| elementsA := A; elementB := [ [b] ] |} (addSlots 0x3ee0001 A b).
Proof.
  intros HA Hb. exists b, b. simpl.
  split; [reflexivity |]. split; [apply ideal_encrypts, Hb |].
  split; [exact HA | reflexivity].
Qed.

Lemma labelled_F1 : labelled p4 tt F1 [10; 20; 30; 40].
Proof. apply (ideal_labelled [1; 2; 3; 4] [9; 18; 27; 36]); apply slotVector4; reflexivity. Qed.

Lemma labelled_F2 : labelled p4 tt F2 [5; 10; 15; 0].
Proof.
  apply (ideal_labelled [65929216; 0; 5; 7] [6; 10; 10; 65929210]);
    apply slotVector4; reflexivity.
Qed.

Lemma labelled_F3 : labelled p4 tt F3 [2; 3; 4; 5].
Proof. apply (ideal_labelled [2; 2; 2; 2] [0; 1; 2; 3]); apply slotVector4; reflexivity. Qed.

Lemma Decrypt_Encrypt_witness_values :
  ∃ C C' : PlaintextLabeledciphertext,
    Encrypt params4 tt 7 v1 = Ok C ∧ Encrypt params4 tt 7 v2 = Ok C' ∧
    elementsA C ≠ elementsA C'.
Proof.
  exists E1, E2.
  split; [reflexivity |]. split; [reflexivity | discriminate].
Qed.

Lemma Sum_homomorphic_witness :
  (labelled p4 tt F1 [10; 20; 30; 40] ∧ labelled p4 tt F2 [5; 10; 15; 0]) ∧
  ∃ C, Sum p4 F1 F2 = Ok C ∧ Decrypt p4 tt C = Ok [15; 30; 45; 40].
Proof.
  split; [split; [exact labelled_F1 | exact labelled_F2] |].
  destruct (Sum_homomorphic params4 tt tt [] (laws4 []) modulus4 F1 F2 _ _
              labelled_F1 labelled_F2)
    as (beta1 & beta2 & betaSum & _ & _ & _ & HS & HD).
  eexists. split; [exact HS | exact HD].
Defined.

Lemma Mult_closed_witness :
  (labelled p4 tt F1 [10; 20; 30; 40] ∧ labelled p4 tt F2 [5; 10; 15; 0]) ∧
  ∃ C, Mult params4 F1 F2 tt (Some []) 5 = Ok C ∧ Decrypt p4 tt C = Ok [50; 200; 450; 0].
Proof.
  split; [split; [exact labelled_F1 | exact labelled_F2] |].
  destruct (Mult_closed params4 tt tt [] (laws4 []) modulus4 sqrt4 F1 F2 _ _ 5 5
              labelled_F1 labelled_F2 eq_refl) as (C & HM & _ & HD).
  exists C. split; [exact HM | exact HD].
Defined.

Lemma Decrypt_by_label_length_witness :
  Decrypt p4 tt short = Ok [2; 3] ∧
  Decrypt p4 tt tooLong = Panic ∧
  Decrypt p4 tt noBeta = Panic.
Proof.
  assert (Hb : ∀ b, slotVector p4 b → encrypts p4 tt b b) by exact ideal_encrypts.
  split; [| split].
  - destruct (Decrypt_by_label_length params4 tt modulus4 short) as [H1 _].
    destruct (H1 [1; 1; 1; 1] [1; 1; 1; 1] eq_refl) as [Hok _].
    + apply Hb, slotVector4; reflexivity.
    + destruct Hok as [Hd _]; [vm_compute; lia | | exact Hd].
      repeat (apply Forall_cons_2; [simpl; lia |]). apply Forall_nil_2.
  - destruct (Decrypt_by_label_length params4 tt modulus4 tooLong) as [H1 _].
    destruct (H1 [9; 18; 27; 36] [9; 18; 27; 36] eq_refl) as [_ Hp].
    + apply Hb, slotVector4; reflexivity.
    + apply Hp. vm_compute. lia.
  - destruct (Decrypt_by_label_length params4 tt modulus4 noBeta) as [_ H2].
    apply H2. reflexivity.
Defined.

Lemma DecryptOverflow_edges_witness :
  encrypts p4 tt [1; 2; 3; 65929216] [1; 2; 3; 65929216] ∧
  DecryptOverflow params4 tt bare = Ok [1; 2; 3; 65929216] ∧
  DecryptOverflow params4 tt emptyTerm = Ok [2; 3; 4; 0].
Proof.
  assert (Hx : encrypts p4 tt [1; 2; 3; 65929216] [1; 2; 3; 65929216])
    by (apply ideal_encrypts, slotVector4; reflexivity).
  split; [exact Hx |].
  destruct (DecryptOverflow_edges params4 tt modulus4) as [_ HE].
  destruct (HE _ _ Hx) as [H0 H1]. split; [exact H0 | exact H1].
Defined.

Lemma SumOverflowCiphertext_comm_assoc_witness :
  (overflowed p4 tt Ca [6; 8; 17; 20] ∧ overflowed p4 tt Cb [11; 9; 14; 8]) ∧
  ∃ Cab Cba,
    SumOverflowCiphertext params4 Ca Cb = Ok Cab ∧
    SumOverflowCiphertext params4 Cb Ca = Ok Cba ∧
    elementB Cab ≠ elementB Cba ∧
    DecryptOverflow params4 tt Cab = Ok [17; 17; 31; 28] ∧
    DecryptOverflow params4 tt Cba = Ok [17; 17; 31; 28].
Proof.
  split; [split; [exact overflowed_Ca | exact overflowed_Cb] |].
  destruct (SumOverflowCiphertext_comm_assoc params4 tt tt [] (laws4 []) modulus4
              Ca Cb Ca _ _ _ overflowed_Ca overflowed_Cb overflowed_Ca)
    as [(Cab & Cba & Hab & Hba & Bab & Bba & Dab & Dba) _].
  exists Cab, Cba. split; [exact Hab |]. split; [exact Hba |].
  split; [rewrite Bab, Bba; discriminate |]. split; [exact Dab | exact Dba].
Defined.

Lemma Mult_propagates_errors_witness :
  (labelled p4 tt F1 [10; 20; 30; 40] ∧ labelled p4 tt F2 [5; 10; 15; 0] ∧
   MulRelin p4 None [9; 18; 27; 36] [6; 10; 10; 65929210] =
     Err "no relinearization key"%string) ∧
  Mult params4 F1 F2 tt None 5 = Err "no relinearization key"%string.
Proof.
  split; [split; [exact labelled_F1 | split; [exact labelled_F2 | reflexivity]] |].
  destruct (Mult_propagates_errors params4 tt tt [] (laws4 []) modulus4 sqrt4) as [_ HM].
  exact (HM F1 F2 _ _ [9; 18; 27; 36] [6; 10; 10; 65929210] None 5 5 _
            labelled_F1 labelled_F2 eq_refl eq_refl eq_refl eq_refl).
Defined.

Lemma Mult_panics_on_length_witness :
  (NewPRNG 5 = Ok 5 ∧ (MaxSlots p4 < length (elementsA tooLong))%nat) ∧
  Mult params4 tooLong F1 tt (Some []) 5 = Panic.
Proof.
  assert (Hlen : (MaxSlots p4 < length (elementsA tooLong))%nat) by (vm_compute; lia).
  split; [split; [reflexivity | exact Hlen] |].
  apply (Mult_panics_on_length params4 tt tooLong F1 (Some []) 5 5 eq_refl).
  left. exact Hlen.
Defined.

Lemma SumOverflow_additive_witness :
  (overflowed p4 tt Ca [6; 8; 17; 20] ∧ labelled p4 tt F1 [10; 20; 30; 40]) ∧
  ∃ Cs, SumOverflow params4 Ca F1 = Ok Cs ∧
        length (elementB Cs) = 2%nat ∧
        DecryptOverflow params4 tt Cs = Ok [16; 28; 47; 60].
Proof.
  split; [split; [exact overflowed_Ca | exact labelled_F1] |].
  destruct (SumOverflow_additive params4 tt tt [] (laws4 []) modulus4) as [HS _].
  destruct (HS Ca F1 _ _ overflowed_Ca labelled_F1) as (Cs & Hs & Hl & Hd).
  exists Cs. split; [exact Hs |]. split; [exact Hl | exact Hd].
Defined.

Lemma overflow_products_sum_witness :
  (labelled p4 tt F1 [10; 20; 30; 40] ∧ labelled p4 tt F2 [5; 10; 15; 0] ∧
   labelled p4 tt F3 [2; 3; 4; 5]) ∧
  ∃ P12 P13 S,
    MultOverflow params4 F1 F2 tt 5 = Ok P12 ∧
    MultOverflow params4 F1 F3 tt 6 = Ok P13 ∧
    SumOverflowCiphertext params4 P12 P13 = Ok S ∧
    length (elementB S) = 2%nat ∧
    DecryptOverflow params4 tt S = Ok [70; 260; 570; 200].
Proof.
  split; [split; [exact labelled_F1 | split; [exact labelled_F2 | exact labelled_F3]] |].
  destruct (overflow_products_sum params4 tt tt [] (laws4 []) modulus4 F1 F2 F3 _ _ _ 5 6
              labelled_F1 labelled_F2 labelled_F3)
    as (P12 & P13 & S & H12 & H13 & HS & HB & HD).
  exists P12, P13, S. split; [exact H12 |]. split; [exact H13 |]. split; [exact HS |].
  split; [apply Forall2_length in HB; exact HB | exact HD].
Defined.

Lemma maskBits_covers_bound_witness :
  0 < maskBound 0x3ee0001 < 2 ^ 63 ∧
  maskBound 0x3ee0001 = 8119 ∧ maskBits 0x3ee0001 = 8191 ∧
  maskBound 0x3ee0001 <= maskBits 0x3ee0001 < 2 * maskBound 0x3ee0001.
Proof.
  assert (Hm : maskBound 0x3ee0001 = 8119) by exact sqrt_of_deployed_modulus.
  assert (Hx : 0 < maskBound 0x3ee0001 < 2 ^ 63) by (rewrite Hm; lia).
  split; [exact Hx |]. split; [exact Hm |]. split; [exact maskBits_deployed |].
  exact (proj2 (maskBits_covers_bound 0x3ee0001 Hx)).
Defined.

Lemma Encrypt_short_vector_witness :
  ((length [10; 20; 30] < MaxSlots p4)%nat ∧ NewPRNG 7 = Ok 7) ∧
  Encrypt params4 tt 7 [10; 20; 30] = Panic.
Proof.
  assert (Hlen : (length [10; 20; 30] < MaxSlots p4)%nat) by (vm_compute; lia).
  split; [split; [exact Hlen | reflexivity] |].
  exact (proj1 (Encrypt_short_vector params4 tt 7 [10; 20; 30] Hlen) 7 eq_refl).
Defined.

Lemma second_label_shorter_panics_witness :
  (length (elementsA short) < length (elementsA long))%nat ∧
  Sum p4 long short = Panic ∧ MultOverflow params4 long short tt 5 = Panic.
Proof.
  assert (Hlen : (length (elementsA short) < length (elementsA long))%nat)
    by (vm_compute; lia).
  split; [exact Hlen |].
  exact (second_label_shorter_panics params4 tt long short 5 Hlen).
Defined.

Lemma Encrypt_beta_independent_witness :
  ∃ C C',
    Encrypt params4 tt 7 v1 = Ok C ∧ Encrypt params4 tt 7 v2 = Ok C' ∧
    elementsA C ≠ elementsA C' ∧ elementB C = elementB C'.
Proof.
  destruct (Decrypt_Encrypt_witness_values) as (C & C' & HE & HE' & Hne).
  exists C, C'. split; [exact HE |]. split; [exact HE' |]. split; [exact Hne |].
  apply (Encrypt_beta_independent params4 tt 7 v1 v2 C C'); try assumption;
    vm_compute; lia.
Defined.

Lemma keysCorrect_deployed : keysCorrect deployed.
Proof. intros w w'. simpl. apply laws; simpl; lia. Qed.

Lemma main_completes_witness :
  (bgv_NewParametersFromLiteral deployed = Ok deployed ∧
   PlaintextModulus deployed = 0x3ee0001 ∧ keysCorrect deployed) ∧
  main randomness0 = Completed.
Proof.
  split; [split; [reflexivity | split; [reflexivity | exact keysCorrect_deployed]] |].
  exact (main_completes randomness0 deployed 3 4 5 6 eq_refl eq_refl
           keysCorrect_deployed eq_refl eq_refl eq_refl eq_refl).
Defined.

Lemma operands_commute_witness :
  (labelled p4 tt F1 [10; 20; 30; 40] ∧ labelled p4 tt F2 [5; 10; 15; 0]) ∧
  (∃ S S', Sum p4 F1 F2 = Ok S ∧ Sum p4 F2 F1 = Ok S' ∧
           Decrypt p4 tt S = Ok [15; 30; 45; 40] ∧ Decrypt p4 tt S' = Ok [15; 30; 45; 40]) ∧
  (∃ M M', Mult params4 F1 F2 tt (Some []) 5 = Ok M ∧
           Mult params4 F2 F1 tt (Some []) 6 = Ok M' ∧
           Decrypt p4 tt M = Ok [50; 200; 450; 0] ∧ Decrypt p4 tt M' = Ok [50; 200; 450; 0]) ∧
  (∃ O O', MultOverflow params4 F1 F2 tt 5 = Ok O ∧
           MultOverflow params4 F2 F1 tt 6 = Ok O' ∧
           DecryptOverflow params4 tt O = Ok [50; 200; 450; 0] ∧
           DecryptOverflow params4 tt O' = Ok [50; 200; 450; 0]).
Proof.
  split; [split; [exact labelled_F1 | exact labelled_F2] |].
  exact (operands_commute params4 tt tt [] (laws4 []) modulus4 sqrt4 F1 F2 _ _ 5 6 5 6
           labelled_F1 labelled_F2 eq_refl eq_refl).
Defined.

Lemma result_shapes_witness :
  Encrypt params4 tt 7 (v1 ++ [50]) = Ok E1 ∧
  length (elementsA E1) = MaxSlots p4 ∧ ∃ beta, elementB E1 = [ [beta] ].
Proof.
  assert (HE : Encrypt params4 tt 7 (v1 ++ [50]) = Ok E1) by reflexivity.
  split; [exact HE |].
  exact (proj1 (result_shapes params4 tt) 7 (v1 ++ [50]) E1 HE).
Defined.

End MoreScenarios.
